(** * cellsolver: the integration drivers of [src/cellsolver/main.py]

    A shallow embedding of the time-stepping drivers ([solve_using_euler],
    [solve_using_scipy] and its two named instances), of the system
    initializer, of the [TimeExecution] decorator and of the driver selection
    done in [main].

    Python floats are IEEE 754 binary64 values; they are embedded as Rocq's
    primitive floats, which are the same format with the same rounding
    (round to nearest, ties to even), so that the drivers run on concrete
    inputs.  Python lists are embedded as [list]s, indexed with stdpp's
    lookup and [alter]; an index out of range raises [IndexError] as in
    Python.  A [while] loop is run for a bounded number of iterations. *)

From Stdlib Require Import ZArith Lia Floats String.
From stdpp Require Import base list.

Set Warnings "-inexact-float".

Local Open Scope float_scope.

(** ** Values *)

(** A Python list of floats: the state, rate and variable vectors. *)
Abbreviation vec := (list float).

(** The exceptions the embedded code can raise. *)
Inductive exn : Type :=
| IndexError
| ZeroDivisionError
| OverflowError.

(** The outcome of running a piece of code for a bounded number of loop
    iterations: it returned a value, it raised, or the loop was still running
    when the bound was reached (with the loop state it had then). *)
Inductive outcome (A L : Type) : Type :=
| Return (a : A)
| Raise (e : exn)
| Running (s : L).
Arguments Return {A L} a.
Arguments Raise {A L} e.
Arguments Running {A L} s.

(** ** The model contract

    A system is a module generated by libCellML.  Its functions receive
    Python lists and write into them in place; here each function returns the
    contents of the lists it may write into after the call.  The functions
    are taken to be total and to have no state of their own. *)
Record System : Type := {
  createStateVector : vec;
  createRateVector : vec;
  createVariableVector : vec;
  (** [initializeConstants(states, variables)]: the new [states] and
      [variables]. *)
  initializeConstants : vec -> vec -> vec * vec;
  (** [computeComputedConstants(variables)]: the new [variables]. *)
  computeComputedConstants : vec -> vec;
  (** [computeRates(voi, states, rates, variables)]: the new [rates] and
      [variables]. *)
  computeRates : float -> vec -> vec -> vec -> vec * vec;
}.

(** [initialize_system(system)], returning [(states, rates, variables)]. *)
Definition initialize_system (system : System) : vec * vec * vec :=
  let rates := createRateVector system in
  let states := createStateVector system in
  let variables := createVariableVector system in
  let '(states, variables) := initializeConstants system states variables in
  let variables := computeComputedConstants system variables in
  (states, rates, variables).

(** ** Python built-ins used by the drivers *)

(** [sum(xs)] on floats: the accumulator starts from the integer [0], which
    the first addition converts to [0.0]. *)
Definition py_sum (xs : list float) : float :=
  fold_left PrimFloat.add xs 0.

(** [zip(a, b)], as long as the shorter of the two. *)
Fixpoint py_zip {A B : Type} (a : list A) (b : list B) : list (A * B) :=
  match a, b with
  | u :: a', v :: b' => (u, v) :: py_zip a' b'
  | _, _ => []
  end.

(** [interval[0]] and [interval[-1]]; both raise [IndexError] on an empty
    list. *)
Definition py_first (interval : list float) : option float := head interval.
Definition py_last (interval : list float) : option float := last interval.

(** A trajectory: the list [x] of sampled times and the list [results] of
    per-state series. *)
Definition Trajectory : Type := list float * list vec.

(** [[[] for _ in range(n)]] *)
Definition empty_results (n : nat) : list vec := replicate n [].

(** [results[index].append(value)] *)
Definition append_at (results : list vec) (index : nat) (value : float)
  : option (list vec) :=
  match results !! index with
  | Some _ => Some (alter (fun series => series ++ [value]) index results)
  | None => None
  end.

(** [for index, value in enumerate(values): results[index].append(value)],
    with [index] counted from [start]. *)
Fixpoint record_from (start : nat) (values : vec) (results : list vec)
  : option (list vec) :=
  match values with
  | [] => Some results
  | value :: rest =>
      match append_at results start value with
      | Some results' => record_from (S start) rest results'
      | None => None
      end
  end.

Definition record (values : vec) (results : list vec) : option (list vec) :=
  record_from 0 values results.

(** ** The fixed-step driver *)

(** The variables of [solve_using_euler] that its loop reads and writes. *)
Record EulerState : Type := {
  e_t : float;
  e_states : vec;
  e_rates : vec;
  e_variables : vec;
  e_x : list float;
  e_results : list vec;
}.

(** [delta = list(map(lambda var: var * step_size, rates))] *)
Definition euler_delta (step_size : float) (rates : vec) : vec :=
  (fun var => var * step_size) <$> rates.

(** [states = [sum(x) for x in zip(states, delta)]] *)
Definition euler_update (states delta : vec) : vec :=
  (fun x => py_sum [x.1; x.2]) <$> py_zip states delta.

(** One pass through the body of the [while] loop. *)
Definition euler_body (system : System) (step_size : float) (st : EulerState)
  : outcome EulerState EulerState :=
  let t := e_t st in
  let '(rates, variables) :=
    computeRates system t (e_states st) (e_rates st) (e_variables st) in
  let delta := euler_delta step_size rates in
  let states := euler_update (e_states st) delta in
  let x := e_x st ++ [t] in
  match record states (e_results st) with
  | None => Raise IndexError
  | Some results =>
      Return {| e_t := t + step_size; e_states := states; e_rates := rates;
                e_variables := variables; e_x := x; e_results := results |}
  end.

(** [while t < end: ...], run for at most [fuel] passes. *)
Fixpoint euler_loop (system : System) (step_size end_ : float) (fuel : nat)
    (st : EulerState) : outcome EulerState EulerState :=
  if e_t st <? end_ then
    match fuel with
    | O => Running st
    | S fuel' =>
        match euler_body system step_size st with
        | Return st' => euler_loop system step_size end_ fuel' st'
        | other => other
        end
    end
  else Return st.

(** The undecorated [solve_using_euler(system, step_size, interval)]. *)
Definition solve_using_euler (system : System) (step_size : float)
    (interval : list float) (fuel : nat) : outcome Trajectory EulerState :=
  let '(states, rates, variables) := initialize_system system in
  let results := empty_results (length states) in
  let x := [] in
  match py_first interval, py_last interval with
  | Some t, Some end_ =>
      match euler_loop system step_size end_ fuel
              {| e_t := t; e_states := states; e_rates := rates;
                 e_variables := variables; e_x := x; e_results := results |}
      with
      | Return st => Return (e_x st, e_results st)
      | Raise e => Raise e
      | Running st => Running st
      end
  | _, _ => Raise IndexError
  end.

(** ** The scipy drivers

    [scipy.integrate.ode] is a library outside this repository.  What the
    driver observes of a solver object is its time [solver.t], its state
    [solver.y] and whether [solver.successful()]; the lists handed over with
    [set_f_params] are the ones the derivative callback writes into. *)
Record Ode : Type := {
  ode_t : float;
  ode_y : vec;
  ode_successful : bool;
  ode_rates : vec;
  ode_variables : vec;
}.

(** [update(voi, states, system, rates, variables)]: the returned rates and
    the new contents of [rates] and [variables]. *)
Definition update (voi : float) (states : vec) (system : System)
    (rates variables : vec) : vec * (vec * vec) :=
  let '(rates, variables) := computeRates system voi states rates variables in
  (rates, (rates, variables)).

(** The derivative callback as the solver calls it: [f(t, y, *f_params)]. *)
Definition Callback : Type := float -> vec -> vec -> vec -> vec * (vec * vec).

(** The variables of [solve_using_scipy] that its loop reads and writes. *)
Record ScipyState : Type := {
  s_solver : Ode;
  s_x : list float;
  s_results : list vec;
}.

Section Scipy.

(** [solver.integrate(t)] for the integrator chosen with
    [set_integrator(method)] and the callback given to [ode]: the solver
    object after the call. *)
Variable integrate : string -> Callback -> Ode -> float -> Ode.

(** [ode(update)], [set_integrator(method)],
    [set_initial_value(states, interval[0])] and
    [set_f_params(system, rates, variables)]: a fresh solver object is
    successful and sits at the initial value. *)
Definition ode_setup (t0 : float) (states rates variables : vec) : Ode :=
  {| ode_t := t0; ode_y := states; ode_successful := true;
     ode_rates := rates; ode_variables := variables |}.

(** [solver.integrate(solver.t + step_size)]: the solver object after the
    call. *)
Definition integrated (system : System) (method : string)
    (step_size : float) (solver : Ode) : Ode :=
  integrate method (fun voi states => update voi states system) solver
    (ode_t solver + step_size).

(** One pass through the body of the [while] loop. *)
Definition scipy_body (system : System) (method : string)
    (step_size : float) (st : ScipyState) : outcome ScipyState ScipyState :=
  let solver := integrated system method step_size (s_solver st) in
  let x := s_x st ++ [ode_t solver] in
  match record (ode_y solver) (s_results st) with
  | None => Raise IndexError
  | Some results =>
      Return {| s_solver := solver; s_x := x; s_results := results |}
  end.

(** [while solver.successful() and solver.t < end: ...], run for at most
    [fuel] passes. *)
Fixpoint scipy_loop (system : System) (method : string)
    (step_size end_ : float) (fuel : nat) (st : ScipyState)
  : outcome ScipyState ScipyState :=
  if ode_successful (s_solver st) && (ode_t (s_solver st) <? end_) then
    match fuel with
    | O => Running st
    | S fuel' =>
        match scipy_body system method step_size st with
        | Return st' => scipy_loop system method step_size end_ fuel' st'
        | other => other
        end
    end
  else Return st.

(** [solve_using_scipy(system, method, step_size, interval)] *)
Definition solve_using_scipy (system : System) (method : string)
    (step_size : float) (interval : list float) (fuel : nat)
  : outcome Trajectory ScipyState :=
  let '(states, rates, variables) := initialize_system system in
  let results := empty_results (length states) in
  let x := [] in
  match py_first interval with
  | Some t0 =>
      let solver := ode_setup t0 states rates variables in
      match py_last interval with
      | Some end_ =>
          match scipy_loop system method step_size end_ fuel
                  {| s_solver := solver; s_x := x; s_results := results |}
          with
          | Return st => Return (s_x st, s_results st)
          | Raise e => Raise e
          | Running st => Running st
          end
      | None => Raise IndexError
      end
  | None => Raise IndexError
  end.

(** The undecorated [solve_using_dop853] and [solve_using_vode]. *)
Definition solve_using_dop853 (system : System) (step_size : float)
    (interval : list float) (fuel : nat) : outcome Trajectory ScipyState :=
  solve_using_scipy system "dop853" step_size interval fuel.

Definition solve_using_vode (system : System) (step_size : float)
    (interval : list float) (fuel : nat) : outcome Trajectory ScipyState :=
  solve_using_scipy system "vode" step_size interval fuel.

End Scipy.

(** ** The timing decorator and [main] *)

(** The class attributes of [TimeExecution]. *)
Record TimeExecution : Type := {
  number : Z;
  run_timeit : bool;
}.

(** What the program writes or draws. *)
Inductive Event : Type :=
| PrintAverage (name : string) (average : float)
| PrintUnknownSolver (solver : string)
| PrintHelp
| PlotSolution (x : list float) (y_n : list vec).

(** The state outside the drivers: the class attributes, the wall clock
    (its successive readings) and the output so far. *)
Record World : Type := {
  w_timing : TimeExecution;
  w_clock : nat -> float;
  w_ticks : nat;
  w_output : list Event;
}.

(** [time.time()] *)
Definition time_time (w : World) : float * World :=
  (w_clock w (w_ticks w),
   {| w_timing := w_timing w; w_clock := w_clock w;
      w_ticks := S (w_ticks w); w_output := w_output w |}).

(** [print(...)], [parser.print_help()] and the plot, as events. *)
Definition emit (ev : Event) (w : World) : World :=
  {| w_timing := w_timing w; w_clock := w_clock w;
     w_ticks := w_ticks w; w_output := w_output w ++ [ev] |}.

(** The conversion of a Python integer to a float, rounding to nearest with
    ties to even; an integer too large for a float raises [OverflowError]. *)
Definition py_float_of_int (n : Z) : option float :=
  let f := SF2Prim (binary_normalize prec emax n 0 false) in
  if is_infinity f then None else Some f.

(** [a / n] for a float [a] and an integer [n]: division by zero raises
    [ZeroDivisionError]. *)
Definition py_truediv_int (a : float) (n : Z) : exn + float :=
  if (n =? 0)%Z then inl ZeroDivisionError
  else
    match py_float_of_int n with
    | None => inl OverflowError
    | Some d => inr (a / d)
    end.

(** [for _ in range(n): f(...)]: the first call that does not return ends
    the loop with its outcome. *)
Fixpoint repeat_call {X A L : Type} (n : nat) (f : X -> outcome A L) (args : X)
  : option (outcome A L) :=
  match n with
  | O => None
  | S n' =>
      match f args with
      | Return _ => repeat_call n' f args
      | other => Some other
      end
  end.

(** [TimeExecution.__call__], for the decorated function [f] of name [name]:
    the outcome of the call and the world after it. *)
Definition TimeExecution_call {X A L : Type} (name : string)
    (f : X -> outcome A L) (args : X) (w : World) : outcome A L * World :=
  if run_timeit (w_timing w) then
    let '(ts, w) := time_time w in
    match repeat_call (Z.to_nat (number (w_timing w))) f args with
    | Some other => (other, w)
    | None =>
        let '(te, w) := time_time w in
        match py_truediv_int ((te - ts) * 1000) (number (w_timing w)) with
        | inl e => (Raise e, w)
        | inr average => (f args, emit (PrintAverage name average) w)
        end
    end
  else (f args, w).

Definition KNOWN_SOLVERS : list string := ["euler"; "dop853"; "vode"]%string.

(** The parsed command line. *)
Record Args : Type := {
  args_solver : string;
  args_timeit : Z;
  args_interval : list float;
  args_step_size : float;
  args_module : System;
}.

(** The state a driver can be left running in. *)
Inductive DriverState : Type :=
| InEuler (st : EulerState)
| InScipy (st : ScipyState).

Definition lift_euler {A : Type} (o : outcome A EulerState)
  : outcome A DriverState :=
  match o with
  | Return a => Return a
  | Raise e => Raise e
  | Running st => Running (InEuler st)
  end.

Definition lift_scipy {A : Type} (o : outcome A ScipyState)
  : outcome A DriverState :=
  match o with
  | Return a => Return a
  | Raise e => Raise e
  | Running st => Running (InScipy st)
  end.

Section Main.

Variable integrate : string -> Callback -> Ode -> float -> Ode.

(** The three drivers as [main] sees them, under [@TimeExecution]. *)
Definition timed_euler (fuel : nat) (args : System * float * list float)
    (w : World) : outcome Trajectory DriverState * World :=
  TimeExecution_call "solve_using_euler"
    (fun '(system, step_size, interval) =>
       lift_euler (solve_using_euler system step_size interval fuel))
    args w.

Definition timed_dop853 (fuel : nat) (args : System * float * list float)
    (w : World) : outcome Trajectory DriverState * World :=
  TimeExecution_call "solve_using_dop853"
    (fun '(system, step_size, interval) =>
       lift_scipy (solve_using_dop853 integrate system step_size interval fuel))
    args w.

Definition timed_vode (fuel : nat) (args : System * float * list float)
    (w : World) : outcome Trajectory DriverState * World :=
  TimeExecution_call "solve_using_vode"
    (fun '(system, step_size, interval) =>
       lift_scipy (solve_using_vode integrate system step_size interval fuel))
    args w.

(** What [main] holds after the driver selection: [valid_solution], [x]
    and [y_n]. *)
Definition Selection : Type := bool * list float * list vec.

(** The [if]/[elif]/[else] chain of [main]. *)
Definition select_driver (args : Args) (fuel : nat) (w : World)
  : outcome Selection DriverState * World :=
  let call := (args_module args, args_step_size args, args_interval args) in
  let valid (r : outcome Trajectory DriverState * World) :=
    match r with
    | (Return (x, y_n), w) => (Return (true, x, y_n), w)
    | (Raise e, w) => (Raise e, w)
    | (Running st, w) => (Running st, w)
    end in
  if String.eqb (args_solver args) "euler" then
    valid (timed_euler fuel call w)
  else if String.eqb (args_solver args) "dop853" then
    valid (timed_dop853 fuel call w)
  else if String.eqb (args_solver args) "vode" then
    valid (timed_vode fuel call w)
  else
    let w := emit (PrintUnknownSolver (args_solver args)) w in
    let w := emit PrintHelp w in
    (Return (false, [], []), w).

(** [main()], from the parsed arguments on. *)
Definition main (args : Args) (fuel : nat) (w : World)
  : outcome unit DriverState * World :=
  let run := (args_timeit args >? 0)%Z in
  let timing :=
    {| run_timeit := run;
       number := if run then args_timeit args else number (w_timing w) |} in
  let w := {| w_timing := timing; w_clock := w_clock w;
              w_ticks := w_ticks w; w_output := w_output w |} in
  match select_driver args fuel w with
  | (Return (valid_solution, x, y_n), w) =>
      if valid_solution
      then (Return tt, emit (PlotSolution x y_n) w)
      else (Return tt, w)
  | (Raise e, w) => (Raise e, w)
  | (Running st, w) => (Running st, w)
  end.

End Main.

(** ** Sample systems, and stand-ins for the solver library *)

(** The scalar system [dy/dt = -y], [y(0) = 1]. *)
Definition decay : System := {|
  createStateVector := [nan];
  createRateVector := [nan];
  createVariableVector := [];
  initializeConstants := fun states variables =>
    (<[0%nat := 1]> states, variables);
  computeComputedConstants := fun variables => variables;
  computeRates := fun voi states rates variables =>
    (<[0%nat := - (default nan (states !! 0%nat))]> rates, variables);
|}.

(** [y + h * dy], component by component; a component without a derivative
    keeps its value. *)
Fixpoint advance (h : float) (y dy : list float) : list float :=
  match y with
  | [] => []
  | u :: y' =>
      match dy with
      | [] => u :: advance h y' []
      | v :: dy' => (u + v * h) :: advance h y' dy'
      end
  end.

(** A solver that reaches the requested time in one explicit step and
    reports success. *)
Definition one_step_integrate (method : string) (f : Callback) (solver : Ode)
    (t : float) : Ode :=
  let '(dy, (rates, variables)) :=
    f (ode_t solver) (ode_y solver) (ode_rates solver) (ode_variables solver) in
  {| ode_t := t;
     ode_y := advance (t - ode_t solver) (ode_y solver) dy;
     ode_successful := true;
     ode_rates := rates; ode_variables := variables |}.

(** A solver that cannot proceed: it reports failure and stays where it
    was. *)
Definition failing_integrate (method : string) (f : Callback) (solver : Ode)
    (t : float) : Ode :=
  {| ode_t := ode_t solver; ode_y := ode_y solver; ode_successful := false;
     ode_rates := ode_rates solver; ode_variables := ode_variables solver |}.

(** A solver that proceeds up to the time [limit] and cannot proceed beyond
    it. *)
Definition stalling_integrate (limit : float) (method : string) (f : Callback)
    (solver : Ode) (t : float) : Ode :=
  if ode_t solver <? limit then one_step_integrate method f solver t
  else failing_integrate method f solver t.

(** A system with two states and a single rate, [dy0/dt = -y0], started
    from [(1, 2)]. *)
Definition lopsided : System := {|
  createStateVector := [nan; nan];
  createRateVector := [nan];
  createVariableVector := [];
  initializeConstants := fun states variables =>
    (<[1%nat := 2]> (<[0%nat := 1]> states), variables);
  computeComputedConstants := fun variables => variables;
  computeRates := fun voi states rates variables =>
    (<[0%nat := - (default nan (states !! 0%nat))]> rates, variables);
|}.

(** A stopped wall clock and the state [main] starts in. *)
Definition initial_world : World :=
  {| w_timing := {| number := 10; run_timeit := false |};
     w_clock := fun _ => 0; w_ticks := 0; w_output := [] |}.

(** ** Vocabulary of the properties *)

(** The functions of the system only assign to elements of the lists they
    are given: the lists keep their lengths. *)
Definition in_place (system : System) : Prop :=
  (forall states variables,
      length (initializeConstants system states variables).1 = length states)
  /\ (forall voi states rates variables,
        length (computeRates system voi states rates variables).1
        = length rates).

(** The rate vector is as long as the state vector. *)
Definition consistent (system : System) : Prop :=
  length (createRateVector system) = length (createStateVector system).

(** The solver returns a state of the shape it was given. *)
Definition keeps_shape (integrate : string -> Callback -> Ode -> float -> Ode)
  : Prop :=
  forall method f solver t,
    length (ode_y (integrate method f solver t)) = length (ode_y solver).

(** Every per-state series is as long as the list of times. *)
Definition aligned (trajectory : Trajectory) : Prop :=
  forall i series,
    trajectory.2 !! i = Some series -> length series = length trajectory.1.

(** Successive times are strictly increasing. *)
Definition increasing (x : list float) : Prop :=
  forall k a b, x !! k = Some a -> x !! S k = Some b -> (a <? b) = true.

(** Equal floats, or floats that compare equal ([0.0] and [-0.0]). *)
Definition same_number (a b : float) : Prop :=
  a = b \/ (a =? b) = true.

(** What holds of the variables of [solve_using_euler] at the top of its
    loop, for [N] series and a rate vector of length [n]: the first
    [min N n] series have one value per recorded time and the others are
    empty. *)
Definition euler_inv (N n : nat) (st : EulerState) : Prop :=
  length (e_results st) = N
  /\ length (e_rates st) = n
  /\ (Nat.min N n <= length (e_states st))%nat
  /\ (length (e_states st) <= N)%nat
  /\ (e_x st <> [] -> length (e_states st) = Nat.min N n)
  /\ (forall i series, e_results st !! i = Some series ->
        length series
        = if decide (i < Nat.min N n)%nat then length (e_x st) else 0%nat).

(** What holds of the variables of [solve_using_scipy] at the top of its
    loop, for [N] series. *)
Definition scipy_inv (N : nat) (st : ScipyState) : Prop :=
  length (s_results st) = N
  /\ length (ode_y (s_solver st)) = N
  /\ (forall i series, s_results st !! i = Some series ->
        length series = length (s_x st)).

(** Every call to the solver succeeds and reaches the requested time. *)
Definition reaches_target
    (integrate : string -> Callback -> Ode -> float -> Ode) : Prop :=
  forall method f solver t,
    ode_t (integrate method f solver t) = t
    /\ ode_successful (integrate method f solver t) = true.

(** *** Vocabulary of the float lemmas *)

Section FloatVocabulary.

Local Open Scope Z_scope.

(** The value of mantissa [m] at exponent [e], in units of the smallest
    positive float. *)
Definition scaled (m : positive) (e : Z) : Z := Zpos m * 2 ^ (e - emin).

Definition canonical (m : positive) (e : Z) : Prop :=
  fexp prec emax (Zpos (digits2_pos m) + e) = e.

(** A shift record that has lost no bit. *)
Definition lossless (mrs : shr_record) : Prop :=
  shr_r mrs = false /\ shr_s mrs = false.

(** The grid of the floats around [m * 2^e]: the value of one unit of the
    mantissa at the exponent the format gives to numbers of that size. *)
Definition grid (m : positive) (e : Z) : Z :=
  2 ^ (fexp prec emax (Zpos (digits2_pos m) + e) - emin).

(** The order of two positive floats, as [SFcompare] computes it: by
    exponent first, then by mantissa. *)
Definition compare_finite (m1 : positive) (e1 : Z) (m2 : positive) (e2 : Z)
  : comparison :=
  match e1 ?= e2 with
  | Lt => Lt
  | Gt => Gt
  | Eq => Pos.compare_cont Eq m1 m2
  end.

End FloatVocabulary.

(** ** Vocabulary of the further properties *)

(** The times [t], [t + h], [(t + h) + h], ...: [n] of them, each the float
    sum of the one before and [h]. *)
Fixpoint times_from (t h : float) (n : nat) : list float :=
  match n with
  | O => []
  | S n' => t :: times_from (t + h) h n'
  end.

(** The time reached from [t] by [n] additions of [h]. *)
Fixpoint time_after (t h : float) (n : nat) : float :=
  match n with
  | O => t
  | S n' => time_after (t + h) h n'
  end.

(** A system with one state and two rates, of which only the first belongs
    to a state. *)
Definition overrated : System := {|
  createStateVector := [nan];
  createRateVector := [nan; nan];
  createVariableVector := [];
  initializeConstants := fun states variables =>
    (<[0%nat := 1]> states, variables);
  computeComputedConstants := fun variables => variables;
  computeRates := fun voi states rates variables =>
    (<[1%nat := 7]> (<[0%nat := - (default nan (states !! 0%nat))]> rates),
     variables);
|}.

(** Every call to the solver succeeds. *)
Definition always_succeeds
    (integrate : string -> Callback -> Ode -> float -> Ode) : Prop :=
  forall method f solver t,
    ode_successful (integrate method f solver t) = true.


(** ** The step size as the command line gives it

    [--step-size] is declared with [nargs=1] and [default=0.001]:
    [args.step_size] is the float [0.001] when the option is absent and a
    list of one float when it is given.  The drivers multiply a float by the
    step size and add the step size to a float; with a list either raises
    [TypeError]. *)
Inductive StepArg : Type :=
| StepDefault (h : float)
| StepGiven (values : list float).


(** The outcome of code that can meet a [TypeError]. *)
Inductive checked (A : Type) : Type :=
| TypeError
| Ran (a : A).
Arguments TypeError {A}.
Arguments Ran {A} a.

(** [var * step_size] *)
Definition py_mul_step (var : float) (step_size : StepArg) : option float :=
  match step_size with
  | StepDefault h => Some (var * h)
  | StepGiven _ => None
  end.

(** [t + step_size] *)
Definition py_add_step (t : float) (step_size : StepArg) : option float :=
  match step_size with
  | StepDefault h => Some (t + h)
  | StepGiven _ => None
  end.

(** [list(map(lambda var: var * step_size, rates))] *)
Fixpoint py_scale (step_size : StepArg) (rates : vec) : option vec :=
  match rates with
  | [] => Some []
  | var :: rest =>
      match py_mul_step var step_size with
      | None => None
      | Some d =>
          match py_scale step_size rest with
          | None => None
          | Some delta => Some (d :: delta)
          end
      end
  end.

(** The body of the loop of [solve_using_euler], on such a step size. *)
Definition euler_body_arg (system : System) (step_size : StepArg)
    (st : EulerState) : checked (outcome EulerState EulerState) :=
  let t := e_t st in
  let '(rates, variables) :=
    computeRates system t (e_states st) (e_rates st) (e_variables st) in
  match py_scale step_size rates with
  | None => TypeError
  | Some delta =>
      let states := euler_update (e_states st) delta in
      let x := e_x st ++ [t] in
      match record states (e_results st) with
      | None => Ran (Raise IndexError)
      | Some results =>
          match py_add_step t step_size with
          | None => TypeError
          | Some t' =>
              Ran (Return {| e_t := t'; e_states := states;
                             e_rates := rates; e_variables := variables;
                             e_x := x; e_results := results |})
          end
      end
  end.

Fixpoint euler_loop_arg (system : System) (step_size : StepArg)
    (end_ : float) (fuel : nat) (st : EulerState)
  : checked (outcome EulerState EulerState) :=
  if e_t st <? end_ then
    match fuel with
    | O => Ran (Running st)
    | S fuel' =>
        match euler_body_arg system step_size st with
        | Ran (Return st') => euler_loop_arg system step_size end_ fuel' st'
        | other => other
        end
    end
  else Ran (Return st).

(** [solve_using_euler(system, args.step_size, interval)] *)
Definition solve_using_euler_arg (system : System) (step_size : StepArg)
    (interval : list float) (fuel : nat)
  : checked (outcome Trajectory EulerState) :=
  let '(states, rates, variables) := initialize_system system in
  let results := empty_results (length states) in
  let x := [] in
  match py_first interval, py_last interval with
  | Some t, Some end_ =>
      match euler_loop_arg system step_size end_ fuel
              {| e_t := t; e_states := states; e_rates := rates;
                 e_variables := variables; e_x := x; e_results := results |}
      with
      | TypeError => TypeError
      | Ran (Return st) => Ran (Return (e_x st, e_results st))
      | Ran (Raise e) => Ran (Raise e)
      | Ran (Running st) => Ran (Running st)
      end
  | _, _ => Ran (Raise IndexError)
  end.

Section ScipyArg.

Variable integrate : string -> Callback -> Ode -> float -> Ode.

(** The body of the loop of [solve_using_scipy], on such a step size:
    [solver.t + step_size] is computed before the solver is called. *)
Definition scipy_body_arg (system : System) (method : string)
    (step_size : StepArg) (st : ScipyState)
  : checked (outcome ScipyState ScipyState) :=
  match py_add_step (ode_t (s_solver st)) step_size with
  | None => TypeError
  | Some t =>
      let solver :=
        integrate method (fun voi states => update voi states system)
          (s_solver st) t in
      let x := s_x st ++ [ode_t solver] in
      match record (ode_y solver) (s_results st) with
      | None => Ran (Raise IndexError)
      | Some results =>
          Ran (Return {| s_solver := solver; s_x := x;
                         s_results := results |})
      end
  end.

Fixpoint scipy_loop_arg (system : System) (method : string)
    (step_size : StepArg) (end_ : float) (fuel : nat) (st : ScipyState)
  : checked (outcome ScipyState ScipyState) :=
  if ode_successful (s_solver st) && (ode_t (s_solver st) <? end_) then
    match fuel with
    | O => Ran (Running st)
    | S fuel' =>
        match scipy_body_arg system method step_size st with
        | Ran (Return st') =>
            scipy_loop_arg system method step_size end_ fuel' st'
        | other => other
        end
    end
  else Ran (Return st).

(** [solve_using_scipy(system, method, args.step_size, interval)] *)
Definition solve_using_scipy_arg (system : System) (method : string)
    (step_size : StepArg) (interval : list float) (fuel : nat)
  : checked (outcome Trajectory ScipyState) :=
  let '(states, rates, variables) := initialize_system system in
  let results := empty_results (length states) in
  let x := [] in
  match py_first interval with
  | Some t0 =>
      let solver := ode_setup t0 states rates variables in
      match py_last interval with
      | Some end_ =>
          match scipy_loop_arg system method step_size end_ fuel
                  {| s_solver := solver; s_x := x; s_results := results |}
          with
          | TypeError => TypeError
          | Ran (Return st) => Ran (Return (s_x st, s_results st))
          | Ran (Raise e) => Ran (Raise e)
          | Ran (Running st) => Ran (Running st)
          end
      | None => Ran (Raise IndexError)
      end
  | None => Ran (Raise IndexError)
  end.

End ScipyArg.


(** * Properties *)

Local Close Scope float_scope.
Local Open Scope nat_scope.

(** ** Recording a sample into the per-state series *)

Lemma append_at_Some results index value :
  index < length results ->
  append_at results index value
  = Some (alter (fun series => series ++ [value]) index results).
Proof.
  intros Hlt. unfold append_at.
  destruct (lookup_lt_is_Some_2 results index Hlt) as [series ->].
  reflexivity.
Qed.

Lemma append_at_None results index value :
  length results <= index -> append_at results index value = None.
Proof.
  intros Hge. unfold append_at.
  rewrite (lookup_ge_None_2 results index Hge). reflexivity.
Qed.

Lemma record_from_Some values : forall start results,
  start + length values <= length results ->
  exists results',
    record_from start values results = Some results'
    /\ length results' = length results
    /\ (forall i, i < start -> results' !! i = results !! i)
    /\ (forall i, start + length values <= i -> results' !! i = results !! i)
    /\ (forall k value, values !! k = Some value ->
          results' !! (start + k)
          = (fun series => series ++ [value]) <$> results !! (start + k)).
Proof.
  induction values as [|v values IH]; intros start results Hlen; simpl in *.
  - exists results. repeat split; auto. intros k value Hk. discriminate.
  - rewrite append_at_Some by lia.
    destruct (IH (S start) (alter (fun series => series ++ [v]) start results))
      as (results' & Hrec & Hl & Hlt & Hge & Hin).
    { rewrite length_alter. lia. }
    exists results'. rewrite Hrec, Hl, length_alter. split; [reflexivity|].
    split; [reflexivity|]. split; [|split].
    + intros i Hi. rewrite Hlt by lia. apply list_lookup_alter_ne. lia.
    + intros i Hi. rewrite Hge by lia. apply list_lookup_alter_ne. lia.
    + intros [|k] value Hk; simpl in Hk.
      * injection Hk as ->. rewrite Nat.add_0_r, Hlt by lia.
        apply list_lookup_alter_eq.
      * replace (start + S k) with (S start + k) by lia.
        rewrite (Hin k value Hk). f_equal. apply list_lookup_alter_ne. lia.
Qed.

Lemma record_from_None values : forall start results,
  values <> [] -> length results < start + length values ->
  record_from start values results = None.
Proof.
  induction values as [|v values IH]; intros start results Hne Hlen;
    [congruence|]. simpl in *.
  destruct (decide (start < length results)) as [Hlt|Hge].
  - rewrite append_at_Some by lia.
    apply IH; [|rewrite length_alter; lia].
    destruct values; [simpl in Hlen; lia|discriminate].
  - rewrite append_at_None by lia. reflexivity.
Qed.

(** Recording a vector no longer than the list of series appends its [i]-th
    value to the [i]-th series and leaves the other series as they were. *)
Lemma record_Some values results :
  length values <= length results ->
  exists results',
    record values results = Some results'
    /\ length results' = length results
    /\ (forall i value, values !! i = Some value ->
          results' !! i = (fun series => series ++ [value]) <$> results !! i)
    /\ (forall i, length values <= i -> results' !! i = results !! i).
Proof.
  intros Hlen. unfold record.
  destruct (record_from_Some values 0 results) as (results' & -> & Hl & _ & Hge & Hin);
    [lia|].
  exists results'. repeat split; auto.
Qed.

(** ** Lengths under [zip] and [map] *)

Lemma length_py_zip {A B : Type} (a : list A) : forall (b : list B),
  length (py_zip a b) = Nat.min (length a) (length b).
Proof.
  induction a as [|u a IH]; intros [|v b]; simpl; auto.
Qed.

Lemma lookup_py_zip {A B : Type} (a : list A) : forall (b : list B) i u v,
  a !! i = Some u -> b !! i = Some v -> py_zip a b !! i = Some (u, v).
Proof.
  induction a as [|u' a IH]; intros [|v' b] [|i] u v Ha Hb;
    simpl in *; try discriminate.
  - congruence.
  - eauto.
Qed.

Lemma length_euler_update states delta :
  length (euler_update states delta) = Nat.min (length states) (length delta).
Proof. unfold euler_update. rewrite length_fmap. apply length_py_zip. Qed.

Lemma length_euler_delta step_size rates :
  length (euler_delta step_size rates) = length rates.
Proof. apply length_fmap. Qed.

(** ** Floats: what the drivers need of IEEE 754 comparison and addition *)

Lemma SFcompare_antisym (a b : spec_float) :
  SFcompare a b = option_map CompOpp (SFcompare b a).
Proof.
  destruct a as [sa|sa| |sa ma ea], b as [sb|sb| |sb mb eb]; simpl;
    try destruct sa; try destruct sb; try reflexivity; simpl.
  all: rewrite (Z.compare_antisym eb ea);
    destruct (eb ?= ea)%Z; simpl; try reflexivity;
    rewrite (Pos.compare_cont_antisym mb ma Eq); simpl;
    rewrite ?CompOpp_involutive; reflexivity.
Qed.

(** [a >= b] excludes [a < b]. *)
Lemma leb_not_ltb (a b : float) :
  (b <=? a)%float = true -> (a <? b)%float = false.
Proof.
  rewrite leb_spec, ltb_spec. unfold SFleb, SFltb.
  rewrite (SFcompare_antisym (Prim2SF a) (Prim2SF b)).
  destruct (SFcompare (Prim2SF b) (Prim2SF a)) as [[ | | ]|]; simpl; congruence.
Qed.

Lemma Prim2SF_eq (a : float) (x : spec_float) :
  Prim2SF a = x -> a = SF2Prim x.
Proof. intros <-. symmetry. apply SF2Prim_Prim2SF. Qed.

(** Adding to [0.0] gives the number back, except that [-0.0] becomes
    [0.0]. *)
Lemma add_zero_l (s : float) :
  (0 + s)%float = s \/ (s = (-0)%float /\ (0 + s)%float = 0%float).
Proof.
  destruct (Prim2SF s) as [[|]| | |] eqn:Hs.
  - right. apply Prim2SF_eq in Hs. subst s. split; reflexivity.
  - left. apply Prim2SF_eq in Hs. subst s. reflexivity.
  - left. apply Prim2SF_inj. rewrite add_spec. unfold SF64add. rewrite Hs.
    reflexivity.
  - left. apply Prim2SF_inj. rewrite add_spec. unfold SF64add. rewrite Hs.
    reflexivity.
  - left. apply Prim2SF_inj. rewrite add_spec. unfold SF64add. rewrite Hs.
    reflexivity.
Qed.

(** Python's [sum((s, d))] is [s + d], up to the sign of a zero result. *)
Lemma py_sum_pair (s d : float) : same_number (py_sum [s; d]) (s + d)%float.
Proof.
  unfold py_sum. simpl.
  destruct (add_zero_l s) as [->|[-> ->]]; [left; reflexivity|].
  destruct (Prim2SF d) as [[|]| | |] eqn:Hd.
  - right. apply Prim2SF_eq in Hd. subst d. reflexivity.
  - left. apply Prim2SF_eq in Hd. subst d. reflexivity.
  - left. apply Prim2SF_inj. rewrite !add_spec. unfold SF64add. rewrite Hd.
    reflexivity.
  - left. apply Prim2SF_inj. rewrite !add_spec. unfold SF64add. rewrite Hd.
    reflexivity.
  - left. apply Prim2SF_inj. rewrite !add_spec. unfold SF64add. rewrite Hd.
    reflexivity.
Qed.

(** ** Floats: rounding of a sum

    The sum of two finite floats is the rounding of the exact sum to the
    format.  What follows establishes, from the specification of the
    rounding in [SpecFloat], that the rounded sum lies between the exact sum
    rounded down and rounded up to the grid of its exponent, and from there
    that adding a positive number never gives a smaller one. *)

Local Open Scope Z_scope.

Lemma digits2_pos_bounds (m : positive) :
  2 ^ (Zpos (digits2_pos m) - 1) <= Zpos m < 2 ^ Zpos (digits2_pos m).
Proof.
  assert (Hdouble : forall d, 0 < d -> 2 ^ d = 2 * 2 ^ (d - 1)).
  { intros d Hd. rewrite <- Z.pow_succ_r by lia. f_equal. lia. }
  induction m as [m IH|m IH|]; simpl digits2_pos.
  - rewrite Pos2Z.inj_succ. change (Zpos m~1) with (2 * Zpos m + 1).
    pose proof (Hdouble (Zpos (digits2_pos m)) ltac:(lia)).
    pose proof (Hdouble (Z.succ (Zpos (digits2_pos m))) ltac:(lia)) as H2.
    replace (Z.succ (Zpos (digits2_pos m)) - 1) with (Zpos (digits2_pos m))
      in * by lia. lia.
  - rewrite Pos2Z.inj_succ. change (Zpos m~0) with (2 * Zpos m).
    pose proof (Hdouble (Zpos (digits2_pos m)) ltac:(lia)).
    pose proof (Hdouble (Z.succ (Zpos (digits2_pos m))) ltac:(lia)) as H2.
    replace (Z.succ (Zpos (digits2_pos m)) - 1) with (Zpos (digits2_pos m))
      in * by lia. lia.
  - simpl. lia.
Qed.

(** The number of digits is determined by the enclosing powers of two. *)
Lemma digits2_pos_unique (m : positive) (k : Z) :
  2 ^ (k - 1) <= Zpos m < 2 ^ k -> Zpos (digits2_pos m) = k.
Proof.
  intros [Hlo Hhi]. pose proof (digits2_pos_bounds m) as [Hlo' Hhi'].
  assert (0 < k).
  { destruct (Z.ltb_spec 0 k); [assumption|].
    destruct (Z.eq_dec k 0) as [->|]; [simpl in Hhi; lia|].
    rewrite Z.pow_neg_r in Hhi by lia. lia. }
  destruct (Z.lt_trichotomy (Zpos (digits2_pos m)) k) as [Hlt|[Heq|Hgt]];
    [|exact Heq|].
  - assert (2 ^ Zpos (digits2_pos m) <= 2 ^ (k - 1))
      by (apply Z.pow_le_mono_r; lia). lia.
  - assert (2 ^ k <= 2 ^ (Zpos (digits2_pos m) - 1))
      by (apply Z.pow_le_mono_r; lia). lia.
Qed.

Lemma shr_1_spec (mrs : shr_record) :
  0 <= shr_m mrs ->
  0 <= shr_m (shr_1 mrs)
  /\ shr_m (shr_1 mrs) = shr_m mrs / 2
  /\ (lossless mrs -> shr_m mrs mod 2 = 0 -> lossless (shr_1 mrs)).
Proof.
  destruct mrs as [m r s]. unfold lossless. simpl. intros Hm.
  destruct m as [|[p|p|]|p]; simpl; try lia.
  - split; [lia|]. split; [reflexivity|]. intros [-> ->] _. auto.
  - split; [lia|]. split.
    + change (Zpos p~1) with (2 * Zpos p + 1).
      apply Z.div_unique with 1; lia.
    + intros [-> ->] Hmod. change (Zpos p~1) with (2 * Zpos p + 1) in Hmod.
      rewrite Z.add_comm, Z.mul_comm, Z.mod_add in Hmod by lia.
      discriminate.
  - split; [lia|]. split.
    + change (Zpos p~0) with (2 * Zpos p).
      apply Z.div_unique with 0; lia.
    + intros [-> ->] _. auto.
  - split; [lia|]. split; [reflexivity|].
    intros [-> ->] Hmod. discriminate.
Qed.

Lemma shr_iter_spec (p : positive) : forall mrs : shr_record,
  0 <= shr_m mrs ->
  0 <= shr_m (SpecFloat.iter_pos shr_1 p mrs)
  /\ shr_m (SpecFloat.iter_pos shr_1 p mrs) = shr_m mrs / 2 ^ Zpos p
  /\ (lossless mrs -> shr_m mrs mod 2 ^ Zpos p = 0 ->
      lossless (SpecFloat.iter_pos shr_1 p mrs)).
Proof.
  induction p as [p IH|p IH|]; intros mrs Hm; simpl SpecFloat.iter_pos.
  - destruct (shr_1_spec mrs Hm) as (H1 & E1 & L1).
    destruct (IH _ H1) as (H2 & E2 & L2).
    destruct (IH _ H2) as (H3 & E3 & L3).
    assert (Hpow : 2 ^ Zpos p~1 = 2 * 2 ^ Zpos p * 2 ^ Zpos p).
    { change (Zpos p~1) with (2 * Zpos p + 1).
      replace (2 * Zpos p + 1) with (Z.succ (Zpos p + Zpos p)) by lia.
      rewrite Z.pow_succ_r, Z.pow_add_r by lia. lia. }
    assert (Hp : 0 < 2 ^ Zpos p) by (apply Z.pow_pos_nonneg; lia).
    split; [exact H3|]. split.
    + rewrite E3, E2, E1, Hpow, !Z.div_div by lia. f_equal. lia.
    + intros Hl Hmod.
      assert (Hdiv : (2 * 2 ^ Zpos p * 2 ^ Zpos p | shr_m mrs)).
      { rewrite <- Hpow. apply Z.mod_divide; [lia|exact Hmod]. }
      destruct Hdiv as [q Hq].
      apply L3; [apply L2; [apply L1; [exact Hl|]|]|].
      * rewrite Hq. replace (q * (2 * 2 ^ Zpos p * 2 ^ Zpos p))
          with ((q * 2 ^ Zpos p * 2 ^ Zpos p) * 2) by lia.
        apply Z.mod_mul. lia.
      * rewrite E1, Hq.
        replace (q * (2 * 2 ^ Zpos p * 2 ^ Zpos p))
          with ((q * 2 ^ Zpos p * 2 ^ Zpos p) * 2) by lia.
        rewrite Z.div_mul by lia. apply Z.mod_mul. lia.
      * rewrite E2, E1, Hq.
        replace (q * (2 * 2 ^ Zpos p * 2 ^ Zpos p))
          with ((q * 2 ^ Zpos p * 2 ^ Zpos p) * 2) by lia.
        rewrite Z.div_mul by lia. rewrite Z.div_mul by lia.
        apply Z.mod_mul. lia.
  - destruct (IH _ Hm) as (H2 & E2 & L2).
    destruct (IH _ H2) as (H3 & E3 & L3).
    assert (Hpow : 2 ^ Zpos p~0 = 2 ^ Zpos p * 2 ^ Zpos p).
    { change (Zpos p~0) with (2 * Zpos p).
      replace (2 * Zpos p) with (Zpos p + Zpos p) by lia.
      apply Z.pow_add_r; lia. }
    assert (Hp : 0 < 2 ^ Zpos p) by (apply Z.pow_pos_nonneg; lia).
    split; [exact H3|]. split.
    + rewrite E3, E2, Hpow, Z.div_div by lia. reflexivity.
    + intros Hl Hmod.
      assert (Hdiv : (2 ^ Zpos p * 2 ^ Zpos p | shr_m mrs)).
      { rewrite <- Hpow. apply Z.mod_divide; [lia|exact Hmod]. }
      destruct Hdiv as [q Hq].
      apply L3; [apply L2; [exact Hl|]|].
      * rewrite Hq, Z.mul_assoc. apply Z.mod_mul. lia.
      * rewrite E2, Hq, Z.mul_assoc, Z.div_mul by lia. apply Z.mod_mul. lia.
  - destruct (shr_1_spec mrs Hm) as (H1 & E1 & L1).
    split; [exact H1|]. split; [exact E1|]. exact L1.
Qed.

Lemma Pos_iter_xO (m d : positive) :
  Zpos (Pos.iter xO m d) = Zpos m * 2 ^ Zpos d.
Proof.
  induction d as [|d IH] using Pos.peano_ind.
  - simpl. lia.
  - rewrite Pos.iter_succ, Pos2Z.inj_succ, Z.pow_succ_r by lia.
    change (Zpos (Pos.iter xO m d)~0) with (2 * Zpos (Pos.iter xO m d)).
    rewrite IH. lia.
Qed.

Lemma fexp_unfold (x : Z) : fexp prec emax x = Z.max (x - 53) (-1074).
Proof. reflexivity. Qed.

Lemma canonical_emin (m : positive) (e : Z) : canonical m e -> -1074 <= e.
Proof. unfold canonical. rewrite fexp_unfold. lia. Qed.

Lemma scaled_pos (m : positive) (e : Z) : -1074 <= e -> 0 < scaled m e.
Proof.
  intros He. unfold scaled.
  assert (0 < 2 ^ (e - emin)) by (apply Z.pow_pos_nonneg; [lia|]; change emin with (-1074); lia).
  lia.
Qed.

(** A canonical mantissa goes through the rounding unchanged. *)
Lemma binary_round_aux_exact (s : bool) (m : positive) (e : Z) :
  canonical m e ->
  binary_round_aux prec emax s (Zpos m) e loc_Exact
  = if e <=? emax - prec then S754_finite s m e else S754_infinity s.
Proof.
  unfold canonical. intros Hc.
  unfold binary_round_aux, shr_fexp. simpl Zdigits2. simpl shr_record_of_loc.
  rewrite Hc, Z.sub_diag. simpl shr. cbv beta iota zeta.
  simpl loc_of_shr_record. simpl round_nearest_even. simpl Zdigits2.
  rewrite Hc, Z.sub_diag. reflexivity.
Qed.

Lemma round_nearest_even_bounds (m : Z) (l : location) :
  m <= round_nearest_even m l <= m + 1.
Proof.
  destruct l as [|[ | | ]]; simpl; try lia. destruct (Z.even m); lia.
Qed.

Lemma loc_of_lossless (mrs : shr_record) :
  lossless mrs -> loc_of_shr_record mrs = loc_Exact.
Proof. destruct mrs as [m r s]. intros [Hr Hs]. simpl in *. subst. reflexivity. Qed.

(** The second shift of the rounding: a mantissa of 53 bits, or the power of
    two above them, comes out canonical with the same value. *)
Lemma round_finish (q e0 : Z) :
  -1074 <= e0 -> 2 ^ 52 <= q <= 2 ^ 53 ->
  exists mrs mr er,
    shr_fexp prec emax q e0 loc_Exact = (mrs, er)
    /\ shr_m mrs = Zpos mr
    /\ canonical mr er
    /\ scaled mr er = q * 2 ^ (e0 - emin).
Proof.
  intros He [Hlo Hhi]. destruct q as [|p|p]; try (simpl in Hlo; lia).
  unfold shr_fexp. simpl Zdigits2. simpl shr_record_of_loc.
  destruct (Z.eq_dec (Zpos p) (2 ^ 53)) as [Heq|Hne].
  - assert (Hp : p = 9007199254740992%positive) by (simpl in Heq; lia).
    subst p.
    change (digits2_pos 9007199254740992) with 54%positive.
    rewrite fexp_unfold.
    replace (Z.max (54 + e0 - 53) (-1074) - e0) with 1 by lia.
    simpl shr. do 3 eexists. split; [reflexivity|]. split; [reflexivity|].
    split.
    + unfold canonical.
      change (digits2_pos 4503599627370496) with 53%positive.
      rewrite fexp_unfold. lia.
    + unfold scaled. change emin with (-1074).
      replace (e0 + 1 - -1074) with (Z.succ (e0 - -1074)) by lia.
      rewrite Z.pow_succ_r by lia. lia.
  - assert (Hd : Zpos (digits2_pos p) = 53).
    { apply digits2_pos_unique. simpl in *. lia. }
    rewrite Hd, fexp_unfold.
    replace (Z.max (53 + e0 - 53) (-1074) - e0) with 0 by lia.
    simpl shr. do 3 eexists. split; [reflexivity|]. split; [reflexivity|].
    split; [|reflexivity].
    unfold canonical. rewrite Hd, fexp_unfold. lia.
Qed.

(** Rounding a mantissa of more than 53 bits: it is shifted down to 53 bits
    and rounded to [q], the quotient or its successor, and to the quotient
    itself when the shift loses nothing. *)
Lemma binary_round_aux_shift (s : bool) (m : positive) (e : Z) :
  -1074 <= e -> 53 < Zpos (digits2_pos m) ->
  let n := Zpos (digits2_pos m) - 53 in
  exists mr er q,
    canonical mr er
    /\ binary_round_aux prec emax s (Zpos m) e loc_Exact
       = (if er <=? emax - prec then S754_finite s mr er
          else S754_infinity s)
    /\ scaled mr er = q * 2 ^ (e + n - emin)
    /\ Zpos m / 2 ^ n <= q <= Zpos m / 2 ^ n + 1
    /\ (Zpos m mod 2 ^ n = 0 -> q = Zpos m / 2 ^ n).
Proof.
  intros He Hd n.
  pose proof (digits2_pos_bounds m) as [Hlo Hhi].
  assert (Hn : 0 < n) by (unfold n; lia).
  assert (Hpn : 0 < 2 ^ n) by (apply Z.pow_pos_nonneg; lia).
  unfold binary_round_aux, shr_fexp at 1. simpl Zdigits2.
  simpl shr_record_of_loc. rewrite fexp_unfold.
  replace (Z.max (Zpos (digits2_pos m) + e - 53) (-1074) - e) with n
    by (unfold n; lia).
  destruct n as [|n'|n'] eqn:Hn'; try lia. simpl shr.
  destruct (shr_iter_spec n' {| shr_m := Zpos m; shr_r := false;
                                 shr_s := false |})
    as (Hm0 & Hm & Hloss); [simpl; lia|]. simpl shr_m in Hm, Hloss.
  set (mrs' := SpecFloat.iter_pos shr_1 n'
                 {| shr_m := Zpos m; shr_r := false; shr_s := false |}) in *.
  set (q := round_nearest_even (shr_m mrs') (loc_of_shr_record mrs')).
  pose proof (round_nearest_even_bounds (shr_m mrs')
                (loc_of_shr_record mrs')) as Hq. fold q in Hq.
  assert (Hrange : 2 ^ 52 <= shr_m mrs' < 2 ^ 53).
  { rewrite Hm. split.
    - apply Z.div_le_lower_bound; [lia|].
      rewrite <- Z.pow_add_r by lia.
      replace (Zpos n' + 52) with (Zpos (digits2_pos m) - 1) by lia. lia.
    - apply Z.div_lt_upper_bound; [lia|].
      rewrite <- Z.pow_add_r by lia.
      replace (Zpos n' + 53) with (Zpos (digits2_pos m)) by lia. lia. }
  destruct (round_finish q (e + Zpos n')) as (mrs & mr & er & Hfin & Hmr & Hc & Hv);
    [lia|lia|].
  cbv beta iota zeta. fold q. rewrite Hfin, Hmr.
  exists mr, er, q. split; [exact Hc|]. split; [reflexivity|].
  split; [exact Hv|]. rewrite <- Hm. split; [exact Hq|].
  intros Hmod. unfold q. rewrite loc_of_lossless; [reflexivity|].
  apply Hloss; [split; reflexivity|exact Hmod].
Qed.

Lemma digits2_pos_shift (m d : positive) :
  Zpos (digits2_pos (Pos.iter xO m d)) = Zpos (digits2_pos m) + Zpos d.
Proof.
  apply digits2_pos_unique. rewrite Pos_iter_xO.
  pose proof (digits2_pos_bounds m) as [Hlo Hhi].
  assert (0 < 2 ^ Zpos d) by (apply Z.pow_pos_nonneg; lia).
  replace (Zpos (digits2_pos m) + Zpos d - 1)
    with (Zpos (digits2_pos m) - 1 + Zpos d) by lia.
  rewrite !Z.pow_add_r by lia. nia.
Qed.

(** The rounding of [m * 2^e] is a canonical float, or an infinity when the
    exponent is too large, and its value lies between the multiples of the
    grid that enclose [m * 2^e]. *)
Lemma binary_round_bounds (s : bool) (m : positive) (e : Z) :
  -1074 <= e ->
  exists mr er,
    canonical mr er
    /\ binary_round prec emax s m e
       = (if er <=? emax - prec then S754_finite s mr er
          else S754_infinity s)
    /\ (forall k, k * grid m e <= scaled m e -> k * grid m e <= scaled mr er)
    /\ (forall k, scaled m e <= k * grid m e -> scaled mr er <= k * grid m e).
Proof.
  intros He. unfold binary_round, shl_align, grid.
  set (d := Zpos (digits2_pos m)).
  pose proof (fexp_unfold (d + e)) as He0.
  destruct (fexp prec emax (d + e) - e) as [|n|n] eqn:Hn.
  - (* the exponent is already the one of the format *)
    assert (Hc : canonical m e) by (unfold canonical; fold d; lia).
    rewrite (binary_round_aux_exact s m e Hc).
    exists m, e. repeat split; auto.
  - (* a mantissa of more than 53 bits *)
    assert (Hd : 53 < d) by lia.
    destruct (binary_round_aux_shift s m e He Hd)
      as (mr & er & q & Hc & Hr & Hv & Hq & Hex).
    fold d in Hv, Hq, Hex. exists mr, er. split; [exact Hc|].
    split; [exact Hr|].
    replace (fexp prec emax (d + e) - emin) with (e + (d - 53) - emin)
      by lia.
    rewrite Hv. unfold scaled.
    replace (e + (d - 53) - emin) with ((e - emin) + (d - 53)) by lia.
    change emin with (-1074).
    rewrite Z.pow_add_r by lia.
    assert (HP : 0 < 2 ^ (e - -1074)) by (apply Z.pow_pos_nonneg; lia).
    assert (HN : 0 < 2 ^ (d - 53)) by (apply Z.pow_pos_nonneg; lia).
    pose proof (Z.div_mod (Zpos m) (2 ^ (d - 53)) ltac:(lia)) as Hdm.
    pose proof (Z.mod_pos_bound (Zpos m) (2 ^ (d - 53)) HN) as Hmb.
    set (P := 2 ^ (e - -1074)) in *. set (N := 2 ^ (d - 53)) in *.
    set (a := Zpos m / N) in *. set (b := Zpos m mod N) in *.
    split; intros k Hk.
    + assert (H1 : k * N <= Zpos m).
      { apply (Z.mul_le_mono_pos_r _ _ P HP). lia. }
      assert (H2 : k <= a).
      { apply Z.div_le_lower_bound; lia. }
      apply Z.mul_le_mono_nonneg_r; lia.
    + assert (H1 : Zpos m <= k * N).
      { apply (Z.mul_le_mono_pos_r _ _ P HP). lia. }
      assert (H2 : q <= k).
      { destruct (Z.eq_dec b 0) as [Hb|Hb].
        - rewrite (Hex Hb). apply (Z.mul_le_mono_pos_r _ _ N HN). lia.
        - assert (a < k); [|lia].
          apply (Z.mul_lt_mono_pos_r N _ _ HN). lia. }
      apply Z.mul_le_mono_nonneg_r; lia.
  - (* a mantissa that can be shifted up to the exponent of the format *)
    assert (Hc : canonical (Pos.iter xO m n) (fexp prec emax (d + e))).
    { unfold canonical. rewrite digits2_pos_shift. fold d.
      replace (d + Zpos n + fexp prec emax (d + e)) with (d + e) by lia.
      reflexivity. }
    rewrite (binary_round_aux_exact s _ _ Hc).
    exists (Pos.iter xO m n), (fexp prec emax (d + e)).
    split; [exact Hc|]. split; [reflexivity|].
    assert (Hv : scaled (Pos.iter xO m n) (fexp prec emax (d + e))
                 = scaled m e).
    { unfold scaled. rewrite Pos_iter_xO. change emin with (-1074).
      replace (e - -1074)
        with (Zpos n + (fexp prec emax (d + e) - -1074)) by lia.
      rewrite Z.pow_add_r by lia. lia. }
    rewrite Hv. split; auto.
Qed.

Lemma canonical_digits (m : positive) (e : Z) :
  canonical m e ->
  Zpos (digits2_pos m) <= 53 /\ (-1074 < e -> Zpos (digits2_pos m) = 53).
Proof. unfold canonical. rewrite fexp_unfold. lia. Qed.

Lemma scaled_bounds (m : positive) (e : Z) :
  -1074 <= e ->
  2 ^ (Zpos (digits2_pos m) + e + 1073) <= scaled m e
  /\ scaled m e < 2 ^ (Zpos (digits2_pos m) + e + 1074).
Proof.
  intros He. unfold scaled. change emin with (-1074).
  pose proof (digits2_pos_bounds m) as [Hlo Hhi].
  assert (HP : 0 < 2 ^ (e - -1074)) by (apply Z.pow_pos_nonneg; lia).
  replace (Zpos (digits2_pos m) + e + 1073)
    with ((Zpos (digits2_pos m) - 1) + (e - -1074)) by lia.
  replace (Zpos (digits2_pos m) + e + 1074)
    with (Zpos (digits2_pos m) + (e - -1074)) by lia.
  rewrite !Z.pow_add_r by lia. split.
  - apply Z.mul_le_mono_nonneg_r; lia.
  - apply Z.mul_lt_mono_pos_r; lia.
Qed.

(** Among canonical floats a smaller exponent means a smaller value. *)
Lemma canonical_lt (m1 : positive) (e1 : Z) (m2 : positive) (e2 : Z) :
  canonical m1 e1 -> canonical m2 e2 -> e1 < e2 ->
  scaled m1 e1 < scaled m2 e2.
Proof.
  intros Hc1 Hc2 Hlt.
  pose proof (canonical_emin _ _ Hc1) as He1.
  destruct (canonical_digits _ _ Hc1) as [Hd1 _].
  destruct (canonical_digits _ _ Hc2) as [_ Hd2].
  specialize (Hd2 ltac:(lia)).
  destruct (scaled_bounds m1 e1 He1) as [_ Hhi].
  destruct (scaled_bounds m2 e2 ltac:(lia)) as [Hlo _].
  rewrite Hd2 in Hlo.
  assert (2 ^ (Zpos (digits2_pos m1) + e1 + 1074) <= 2 ^ (53 + e2 + 1073))
    by (apply Z.pow_le_mono_r; lia).
  lia.
Qed.

(** Among canonical floats the order of [SFcompare] is the order of the
    values. *)
Lemma canonical_compare (m1 : positive) (e1 : Z) (m2 : positive) (e2 : Z) :
  canonical m1 e1 -> canonical m2 e2 ->
  compare_finite m1 e1 m2 e2 = (scaled m1 e1 ?= scaled m2 e2).
Proof.
  intros Hc1 Hc2. unfold compare_finite.
  destruct (Z.compare_spec e1 e2) as [Heq|Hlt|Hgt].
  - subst e2. unfold scaled.
    assert (0 < 2 ^ (e1 - emin)).
    { apply Z.pow_pos_nonneg; [lia|].
      pose proof (canonical_emin _ _ Hc1). change emin with (-1074). lia. }
    rewrite <- Zmult_compare_compat_r by lia.
    rewrite <- Pos2Z.inj_compare. reflexivity.
  - symmetry. apply Z.compare_lt_iff. apply canonical_lt; assumption.
  - symmetry. apply Z.compare_gt_iff. apply canonical_lt; assumption.
Qed.

(** A float as small as a number has no more digits than it. *)
Lemma scaled_le_digits (m1 : positive) (e1 : Z) (m2 : positive) (e2 : Z) :
  -1074 <= e1 -> -1074 <= e2 -> scaled m1 e1 <= scaled m2 e2 ->
  Zpos (digits2_pos m1) + e1 <= Zpos (digits2_pos m2) + e2.
Proof.
  intros He1 He2 Hle.
  destruct (scaled_bounds m1 e1 He1) as [Hlo _].
  destruct (scaled_bounds m2 e2 He2) as [_ Hhi].
  assert (Hpow : 2 ^ (Zpos (digits2_pos m1) + e1 + 1073)
                 < 2 ^ (Zpos (digits2_pos m2) + e2 + 1074)) by lia.
  apply Z.pow_lt_mono_r_iff in Hpow; [lia|lia|].
  pose proof (digits2_pos_bounds m2). lia.
Qed.

(** Rounding is monotone with respect to the floats: a canonical float below
    the number is below its rounding, and one above it is above its
    rounding. *)
Lemma binary_round_monotone (s : bool) (m : positive) (e : Z)
    (mx : positive) (ex : Z) :
  -1074 <= e -> canonical mx ex ->
  exists mr er,
    canonical mr er
    /\ binary_round prec emax s m e
       = (if er <=? emax - prec then S754_finite s mr er
          else S754_infinity s)
    /\ (scaled mx ex <= scaled m e -> scaled mx ex <= scaled mr er)
    /\ (scaled m e <= scaled mx ex -> scaled mr er <= scaled mx ex).
Proof.
  intros He Hcx.
  destruct (binary_round_bounds s m e He) as (mr & er & Hc & Hr & Hlo & Hhi).
  exists mr, er. split; [exact Hc|]. split; [exact Hr|].
  pose proof (canonical_emin _ _ Hcx) as Hex.
  unfold grid in Hlo, Hhi.
  set (dv := Zpos (digits2_pos m) + e) in *.
  set (dx := Zpos (digits2_pos mx) + ex).
  assert (Hfx : fexp prec emax dx = ex) by exact Hcx.
  rewrite fexp_unfold in Hfx. rewrite fexp_unfold in Hlo, Hhi.
  change emin with (-1074) in *.
  pose proof (digits2_pos_bounds m) as [_ Hm1].
  assert (Hdm : 0 < Zpos (digits2_pos m)) by lia.
  set (e0 := Z.max (dv - 53) (-1074)) in *.
  assert (HG : 0 < 2 ^ (e0 - -1074)) by (apply Z.pow_pos_nonneg; lia).
  split; intros Hle.
  - pose proof (scaled_le_digits mx ex m e Hex He Hle) as Hd.
    fold dx dv in Hd.
    destruct (Z.eq_dec dx dv) as [Heq|Hne].
    + (* the same grid: the float is a multiple of it *)
      assert (Hee : ex = e0) by (unfold e0; lia).
      assert (Hsx : scaled mx ex = Zpos mx * 2 ^ (e0 - -1074))
        by (unfold scaled; rewrite Hee; reflexivity).
      rewrite Hsx in *. apply Hlo. exact Hle.
    + (* fewer digits: the float is below the power of two under [m * 2^e] *)
      destruct (scaled_bounds mx ex Hex) as [_ Hxhi]. fold dx in Hxhi.
      destruct (scaled_bounds m e He) as [Hvlo _]. fold dv in Hvlo.
      assert (Hpow : 2 ^ (dx + 1074) <= 2 ^ (dv + 1073))
        by (apply Z.pow_le_mono_r; lia).
      assert (Hk : 2 ^ (dv + 1073)
                   = 2 ^ (dv - 1 - e0) * 2 ^ (e0 - -1074)).
      { rewrite <- Z.pow_add_r by (unfold e0; lia). f_equal. lia. }
      specialize (Hlo (2 ^ (dv - 1 - e0))). rewrite <- Hk in Hlo.
      specialize (Hlo Hvlo). lia.
  - pose proof (scaled_le_digits m e mx ex He Hex Hle) as Hd.
    fold dx dv in Hd.
    assert (He0 : e0 <= ex) by (unfold e0; lia).
    assert (Hk : scaled mx ex
                 = (Zpos mx * 2 ^ (ex - e0)) * 2 ^ (e0 - -1074)).
    { unfold scaled. change emin with (-1074).
      rewrite <- Z.mul_assoc, <- Z.pow_add_r by lia. do 2 f_equal. lia. }
    rewrite Hk. apply Hhi. rewrite <- Hk. exact Hle.
Qed.

Lemma shl_align_scaled (m : positive) (e ez : Z) :
  -1074 <= ez -> ez <= e ->
  Zpos (fst (shl_align m e ez)) * 2 ^ (ez - emin) = scaled m e.
Proof.
  intros Hez Hle. unfold shl_align, scaled. change emin with (-1074).
  destruct (ez - e) as [|d|d] eqn:Hd; simpl fst.
  - replace ez with e by lia. reflexivity.
  - lia.
  - rewrite Pos_iter_xO, <- Z.mul_assoc, <- Z.pow_add_r by lia.
    do 2 f_equal. lia.
Qed.

Lemma SFcompare_positive (m1 : positive) (e1 : Z) (m2 : positive) (e2 : Z) :
  SFcompare (S754_finite false m1 e1) (S754_finite false m2 e2)
  = Some (compare_finite m1 e1 m2 e2).
Proof. reflexivity. Qed.

Lemma SFcompare_negative (m1 : positive) (e1 : Z) (m2 : positive) (e2 : Z) :
  SFcompare (S754_finite true m1 e1) (S754_finite true m2 e2)
  = Some (CompOpp (compare_finite m1 e1 m2 e2)).
Proof. unfold compare_finite. simpl. destruct (e1 ?= e2); reflexivity. Qed.

Lemma valid_binary_finite (s : bool) (m : positive) (e : Z) :
  valid_binary (S754_finite s m e) = true -> canonical m e /\ e <= 971.
Proof.
  simpl. unfold bounded, canonical_mantissa, canonical.
  intros H. apply andb_prop in H as [Hc He].
  apply Z.eqb_eq in Hc. apply Z.leb_le in He.
  change (emax - prec) with 971 in He. split; assumption.
Qed.

(** The sum of two finite floats, compared with the first of them: it is
    not smaller when the second is positive, and not greater when the second
    is negative. *)
Lemma SFadd_finite_compare (sx sh : bool) (mx : positive) (ex : Z)
    (mh : positive) (eh : Z) :
  canonical mx ex -> ex <= 971 -> canonical mh eh ->
  exists c,
    SFcompare (SFadd prec emax (S754_finite sx mx ex) (S754_finite sh mh eh))
      (S754_finite sx mx ex) = Some c
    /\ (if sh then c <> Gt else c <> Lt).
Proof.
  intros Hcx Hbx Hch.
  pose proof (canonical_emin _ _ Hcx) as Hex.
  pose proof (canonical_emin _ _ Hch) as Heh.
  unfold SFadd. set (ez := Z.min ex eh).
  pose proof (shl_align_scaled mx ex ez ltac:(lia) ltac:(lia)) as HMx.
  pose proof (shl_align_scaled mh eh ez ltac:(lia) ltac:(lia)) as HMh.
  pose proof (scaled_pos mh eh Heh) as Hhpos.
  pose proof (scaled_pos mx ex Hex) as Hxpos.
  set (Mx := Zpos (fst (shl_align mx ex ez))) in *.
  set (Mh := Zpos (fst (shl_align mh eh ez))) in *.
  assert (HP : 0 < 2 ^ (ez - emin)).
  { apply Z.pow_pos_nonneg; [lia|]. change emin with (-1074). lia. }
  assert (HMx0 : 0 < Mx) by (unfold Mx; lia).
  assert (HMh0 : 0 < Mh) by (unfold Mh; lia).
  unfold binary_normalize.
  destruct (cond_Zopp sx Mx + cond_Zopp sh Mh) as [|p|p] eqn:HM.
  - (* the sum is zero *)
    destruct sx, sh; simpl in HM; try lia; simpl; eexists;
      (split; [reflexivity|discriminate]).
  - (* the sum is positive *)
    destruct (binary_round_monotone false p ez mx ex ltac:(lia) Hcx)
      as (mr & er & Hcr & -> & Hlo & Hhi).
    assert (Hp : scaled p ez = (cond_Zopp sx Mx + cond_Zopp sh Mh)
                               * 2 ^ (ez - emin))
      by (rewrite HM; reflexivity).
    destruct sx.
    + (* a negative first summand: the sum is above it *)
      destruct sh; simpl in HM; [lia|].
      destruct (er <=? emax - prec); simpl; eexists;
        (split; [reflexivity|discriminate]).
    + destruct sh; simpl in Hp.
      * assert (Hle : scaled p ez <= scaled mx ex) by nia.
        specialize (Hhi Hle).
        destruct (Z.leb_spec er (emax - prec)) as [Her|Her].
        -- rewrite SFcompare_positive, (canonical_compare _ _ _ _ Hcr Hcx).
           eexists. split; [reflexivity|].
           intros Hgt. rewrite Z.compare_gt_iff in Hgt. lia.
        -- change (emax - prec) with 971 in Her.
           pose proof (canonical_lt mx ex mr er Hcx Hcr ltac:(lia)). lia.
      * assert (Hle : scaled mx ex <= scaled p ez) by nia.
        specialize (Hlo Hle).
        destruct (er <=? emax - prec).
        -- rewrite SFcompare_positive, (canonical_compare _ _ _ _ Hcr Hcx).
           eexists. split; [reflexivity|].
           intros Hlt. rewrite Z.compare_lt_iff in Hlt. lia.
        -- simpl. eexists. split; [reflexivity|discriminate].
  - (* the sum is negative *)
    destruct (binary_round_monotone true p ez mx ex ltac:(lia) Hcx)
      as (mr & er & Hcr & -> & Hlo & Hhi).
    assert (Hp : scaled p ez = - (cond_Zopp sx Mx + cond_Zopp sh Mh)
                               * 2 ^ (ez - emin))
      by (rewrite HM; reflexivity).
    destruct sx.
    + destruct sh; simpl in Hp.
      * assert (Hle : scaled mx ex <= scaled p ez) by nia.
        specialize (Hlo Hle).
        destruct (er <=? emax - prec).
        -- rewrite SFcompare_negative, (canonical_compare _ _ _ _ Hcr Hcx).
           eexists. split; [reflexivity|].
           destruct (Z.compare_spec (scaled mr er) (scaled mx ex));
             simpl; try discriminate. lia.
        -- simpl. eexists. split; [reflexivity|discriminate].
      * assert (Hle : scaled p ez <= scaled mx ex) by nia.
        specialize (Hhi Hle).
        destruct (Z.leb_spec er (emax - prec)) as [Her|Her].
        -- rewrite SFcompare_negative, (canonical_compare _ _ _ _ Hcr Hcx).
           eexists. split; [reflexivity|].
           destruct (Z.compare_spec (scaled mr er) (scaled mx ex));
             simpl; try discriminate. lia.
        -- change (emax - prec) with 971 in Her.
           pose proof (canonical_lt mx ex mr er Hcx Hcr ltac:(lia)). lia.
    + (* a positive first summand: the sum is below it *)
      destruct sh; simpl in HM; [|lia].
      destruct (er <=? emax - prec); simpl; eexists;
        (split; [reflexivity|discriminate]).
Qed.

Lemma compare_finite_Lt (m1 : positive) (e1 : Z) (m2 : positive) (e2 : Z) :
  compare_finite m1 e1 m2 e2 = Lt
  <-> e1 < e2 \/ (e1 = e2 /\ Zpos m1 < Zpos m2).
Proof.
  unfold compare_finite. change (Pos.compare_cont Eq m1 m2) with (m1 ?= m2)%positive.
  destruct (Z.compare_spec e1 e2); [|split; [lia|reflexivity]|split; [discriminate|lia]].
  rewrite Pos.compare_lt_iff. lia.
Qed.

Lemma compare_finite_Gt (m1 : positive) (e1 : Z) (m2 : positive) (e2 : Z) :
  compare_finite m1 e1 m2 e2 = Gt
  <-> e2 < e1 \/ (e1 = e2 /\ Zpos m2 < Zpos m1).
Proof.
  unfold compare_finite. change (Pos.compare_cont Eq m1 m2) with (m1 ?= m2)%positive.
  destruct (Z.compare_spec e1 e2); [|split; [discriminate|lia]|split; [lia|reflexivity]].
  rewrite Pos.compare_gt_iff. lia.
Qed.

Lemma compare_finite_Eq (m1 : positive) (e1 : Z) (m2 : positive) (e2 : Z) :
  compare_finite m1 e1 m2 e2 = Eq <-> e1 = e2 /\ m1 = m2.
Proof.
  unfold compare_finite. change (Pos.compare_cont Eq m1 m2) with (m1 ?= m2)%positive.
  destruct (Z.compare_spec e1 e2); [|split; [discriminate|lia]..].
  rewrite Pos.compare_eq_iff. tauto.
Qed.

Ltac destruct_signs :=
  repeat match goal with s : bool |- _ => destruct s end.

Lemma SFcompare_finite (s1 s2 : bool) (m1 : positive) (e1 : Z)
    (m2 : positive) (e2 : Z) :
  SFcompare (S754_finite s1 m1 e1) (S754_finite s2 m2 e2)
  = Some match s1, s2 with
         | true, false => Lt
         | false, true => Gt
         | false, false => compare_finite m1 e1 m2 e2
         | true, true => CompOpp (compare_finite m1 e1 m2 e2)
         end.
Proof.
  destruct s1, s2; try reflexivity. apply SFcompare_negative.
Qed.

(** [<] on floats is transitive. *)
Lemma SFcompare_Lt_trans (a b c : spec_float) :
  SFcompare a b = Some Lt -> SFcompare b c = Some Lt ->
  SFcompare a c = Some Lt.
Proof.
  destruct a as [sa|sa| |sa ma ea], b as [sb|sb| |sb mb eb],
    c as [sc|sc| |sc mc ec];
    rewrite ?SFcompare_finite;
    try (destruct_signs; simpl; congruence).
  destruct sa, sb, sc; try congruence; intros Hab Hbc; f_equal;
    injection Hab as Hab; injection Hbc as Hbc.
  - apply (f_equal CompOpp) in Hab, Hbc.
    rewrite CompOpp_involutive in Hab, Hbc. simpl in Hab, Hbc.
    rewrite compare_finite_Gt in Hab, Hbc.
    rewrite <- (CompOpp_involutive Lt). f_equal. simpl.
    rewrite compare_finite_Gt. lia.
  - rewrite compare_finite_Lt in *. lia.
Qed.

(** Floats that compare equal are the same float, or two zeros. *)
Lemma SFcompare_Eq (a b : spec_float) :
  SFcompare a b = Some Eq ->
  a = b \/ exists sa sb, a = S754_zero sa /\ b = S754_zero sb.
Proof.
  destruct a as [sa|sa| |sa ma ea], b as [sb|sb| |sb mb eb];
    rewrite ?SFcompare_finite;
    try (destruct_signs; simpl; congruence).
  - intros _. right. eauto.
  - destruct sa, sb; simpl; intros H; try discriminate; auto.
  - destruct sa, sb; intros H; try discriminate; injection H as H.
    + apply (f_equal CompOpp) in H. rewrite CompOpp_involutive in H.
      simpl in H. apply compare_finite_Eq in H as [-> ->]. auto.
    + apply compare_finite_Eq in H as [-> ->]. auto.
Qed.

Lemma SFcompare_Some (a b : spec_float) :
  a <> S754_nan -> b <> S754_nan -> exists c, SFcompare a b = Some c.
Proof.
  destruct a, b; try congruence; intros _ _; rewrite ?SFcompare_finite;
    simpl; eauto.
Qed.

Lemma SFltb_not_nan (a b : spec_float) :
  SFltb a b = true -> a <> S754_nan /\ b <> S754_nan.
Proof.
  unfold SFltb. destruct a, b; simpl; try discriminate; split; discriminate.
Qed.

Local Close Scope Z_scope.

(** *** The three facts the drivers need of float addition *)

Lemma positive_spec (h : float) :
  (0 <? h)%float = true ->
  Prim2SF h = S754_infinity false
  \/ exists m e, Prim2SF h = S754_finite false m e.
Proof.
  rewrite ltb_spec. change (Prim2SF 0) with (S754_zero false).
  destruct (Prim2SF h) as [s|[|]| |[|] m e]; simpl; try discriminate; eauto.
Qed.

Lemma nonpositive_spec (h : float) :
  (h <=? 0)%float = true ->
  (exists s, Prim2SF h = S754_zero s)
  \/ Prim2SF h = S754_infinity true
  \/ exists m e, Prim2SF h = S754_finite true m e.
Proof.
  rewrite leb_spec. change (Prim2SF 0) with (S754_zero false).
  destruct (Prim2SF h) as [s|[|]| |[|] m e]; simpl; try discriminate; eauto.
Qed.

(** Adding a positive number does not give a smaller one. *)
Lemma add_pos_not_lt (t h : float) :
  (0 <? h)%float = true -> (t + h <? t)%float = false.
Proof.
  intros Hh. rewrite ltb_spec, add_spec. unfold SF64add, SFltb.
  pose proof (Prim2SF_valid t) as Hvt. pose proof (Prim2SF_valid h) as Hvh.
  destruct (positive_spec h Hh) as [Hinf|(mh & eh & Hfin)].
  - rewrite Hinf. destruct (Prim2SF t) as [s|[|]| |s m e]; reflexivity.
  - rewrite Hfin in *.
    destruct (Prim2SF t) as [s|[|]| |s m e]; try reflexivity.
    apply valid_binary_finite in Hvt as [Hct Hbt].
    apply valid_binary_finite in Hvh as [Hch _].
    destruct (SFadd_finite_compare s false m e mh eh Hct Hbt Hch)
      as (c & -> & Hc).
    destruct c; congruence.
Qed.

(** Adding a positive number gives a greater one, unless it gives the same
    one or leaves the numbers. *)
Lemma add_pos_increases (t h end_ : float) :
  (0 <? h)%float = true ->
  (t <? end_)%float = true -> (t + h <? end_)%float = true ->
  (t + h)%float <> t ->
  (t <? t + h)%float = true.
Proof.
  intros Hh Ht Hth Hne. pose proof (add_pos_not_lt t h Hh) as Hnlt.
  pose proof (positive_spec h Hh) as Hpos. clear Hh.
  rewrite ltb_spec in *.
  apply SFltb_not_nan in Ht as [Htn _]. apply SFltb_not_nan in Hth as [Hthn _].
  destruct (SFcompare_Some _ _ Htn Hthn) as [c Hc].
  unfold SFltb in *. rewrite Hc.
  rewrite (SFcompare_antisym (Prim2SF (t + h)) (Prim2SF t)), Hc in Hnlt.
  destruct c; simpl in Hnlt; try congruence.
  apply SFcompare_Eq in Hc as [Heq|(sa & sb & Ha & Hb)].
  - apply Prim2SF_inj in Heq. congruence.
  - rewrite add_spec in Hb. unfold SF64add in Hb. rewrite Ha in Hb.
    destruct Hpos as [Hinf|(mh & eh & Hfin)].
    + rewrite Hinf in Hb. discriminate.
    + rewrite Hfin in Hb. discriminate.
Qed.

Lemma SFcompare_zero_l (s s' : bool) (c : spec_float) :
  SFcompare (S754_zero s) c = SFcompare (S754_zero s') c.
Proof. destruct c; reflexivity. Qed.

(** Adding a number that is not positive stays below whatever the first
    number was below. *)
Lemma add_nonpos_stays (t h end_ : float) :
  (h <=? 0)%float = true ->
  (t <? end_)%float = true -> (t + h <? end_)%float = true.
Proof.
  intros Hh. rewrite !ltb_spec, add_spec. unfold SF64add, SFltb.
  pose proof (Prim2SF_valid t) as Hvt. pose proof (Prim2SF_valid h) as Hvh.
  destruct (nonpositive_spec h Hh) as [[sh Hzero]|[Hinf|(mh & eh & Hfin)]].
  - rewrite Hzero.
    destruct (Prim2SF t) as [s|[|]| |s m e]; try (intros; assumption).
    destruct s, sh; simpl SFadd; try (intros; assumption);
      rewrite (SFcompare_zero_l false true); intros; assumption.
  - rewrite Hinf.
    destruct (Prim2SF t) as [s|[|]| |s m e], (Prim2SF end_) as [s'|[|]| |s' m' e'];
      simpl; try congruence; destruct_signs; simpl; congruence.
  - rewrite Hfin in *.
    destruct (Prim2SF t) as [s|[|]| |s m e] eqn:Et; try (intros; assumption).
    + simpl SFadd.
      destruct (Prim2SF end_) as [s'|[|]| |[|] m' e']; simpl; congruence.
    + apply valid_binary_finite in Hvt as [Hct Hbt].
      apply valid_binary_finite in Hvh as [Hch _].
      destruct (SFadd_finite_compare s true m e mh eh Hct Hbt Hch)
        as (c & Hc & Hngt).
      intros Hlt.
      destruct (SFcompare (S754_finite s m e) (Prim2SF end_)) as [[| |]|] eqn:Hte;
        try discriminate.
      destruct c; [| |congruence].
      * apply SFcompare_Eq in Hc as [->|(sa & sb & _ & Hb)];
          [rewrite Hte; reflexivity|discriminate].
      * rewrite (SFcompare_Lt_trans _ _ _ Hc Hte). reflexivity.
Qed.

(** Adding a positive number to a number that is below some other one, and
    is not minus infinity, gives a greater number unless it gives the same
    one. *)
Lemma add_pos_increases_from (t h end_ : float) :
  (0 <? h)%float = true ->
  (t <? end_)%float = true -> t <> neg_infinity ->
  (t + h)%float <> t ->
  (t <? t + h)%float = true.
Proof.
  intros Hh Ht Hninf Hne.
  pose proof (Prim2SF_valid t) as Hvt. pose proof (Prim2SF_valid h) as Hvh.
  pose proof (positive_spec h Hh) as Hpos. clear Hh.
  assert (Hne' : Prim2SF (t + h) <> Prim2SF t)
    by (intros Heq; apply Prim2SF_inj in Heq; contradiction).
  rewrite ltb_spec in *. rewrite add_spec in *. unfold SF64add, SFltb in *.
  destruct (Prim2SF t) as [s|[|]| |s m e] eqn:Et.
  - destruct Hpos as [->|(mh & eh & ->)]; reflexivity.
  - apply Prim2SF_eq in Et. contradiction.
  - destruct (Prim2SF end_) as [?|[|]| |]; discriminate.
  - discriminate.
  - destruct Hpos as [->|(mh & eh & Hfin)]; [destruct s; reflexivity|].
    rewrite Hfin in *.
    apply valid_binary_finite in Hvt as [Hct Hbt].
    apply valid_binary_finite in Hvh as [Hch _].
    destruct (SFadd_finite_compare s false m e mh eh Hct Hbt Hch)
      as (c & Hc & Hnlt).
    rewrite SFcompare_antisym, Hc. destruct c; simpl; try congruence.
    apply SFcompare_Eq in Hc as [Heq|(sa & sb & _ & Hb)];
      [contradiction|discriminate].
Qed.

(** A sum with a positive number is minus infinity only if the first number
    was. *)
Lemma add_pos_neg_infinity (t h end_ : float) :
  (0 <? h)%float = true -> (t <? end_)%float = true ->
  (t + h)%float = neg_infinity -> t = neg_infinity.
Proof.
  intros Hh Ht Hsum. pose proof (add_pos_not_lt t h Hh) as Hnlt.
  rewrite Hsum in Hnlt. rewrite ltb_spec in *.
  change (Prim2SF neg_infinity) with (S754_infinity true) in Hnlt.
  unfold SFltb in *.
  destruct (Prim2SF t) as [s|[|]| |s m e] eqn:Et; try discriminate.
  apply Prim2SF_eq in Et. exact Et.
Qed.

(** ** The fixed-step driver: what each pass through the loop keeps *)

Section EulerInvariant.

Variable system : System.
Variable step_size : float.
Variables N n : nat.
Hypothesis rates_in_place : forall voi states rates variables,
  length (computeRates system voi states rates variables).1 = length rates.

Lemma euler_body_inv (st : EulerState) :
  euler_inv N n st ->
  exists st',
    euler_body system step_size st = Return st'
    /\ euler_inv N n st'
    /\ e_x st' = e_x st ++ [e_t st]
    /\ e_t st' = (e_t st + step_size)%float
    /\ length (e_states st') = Nat.min N n.
Proof.
  intros (Hres & Hrates & Hlo & Hhi & Hx & Hser). unfold euler_body.
  pose proof (rates_in_place (e_t st) (e_states st) (e_rates st)
                (e_variables st)) as Hlen.
  destruct (computeRates system (e_t st) (e_states st) (e_rates st)
              (e_variables st)) as [rates variables]. simpl in Hlen.
  set (states := euler_update (e_states st) (euler_delta step_size rates)).
  assert (Hstates : length states = Nat.min N n).
  { unfold states. rewrite length_euler_update, length_euler_delta. lia. }
  destruct (record_Some states (e_results st))
    as (results & -> & Hl & Hin & Hout); [lia|].
  eexists. split; [reflexivity|]. simpl.
  split; [|repeat split; auto].
  unfold euler_inv; simpl. repeat split; try lia.
  intros i series Hi. rewrite length_app. simpl.
  destruct (decide (i < Nat.min N n)) as [Hlt|Hge].
  - destruct (lookup_lt_is_Some_2 states i) as [value Hv]; [lia|].
    rewrite (Hin i value Hv) in Hi.
    destruct (e_results st !! i) as [old|] eqn:Hold; [|discriminate].
    injection Hi as <-. rewrite length_app. simpl.
    rewrite (Hser i old Hold). destruct (decide (i < Nat.min N n)); lia.
  - rewrite Hout in Hi by lia. rewrite (Hser i series Hi).
    destruct (decide (i < Nat.min N n)); lia.
Qed.

(** The loop never raises, and whatever state it stops or is left in
    satisfies the invariant. *)
Lemma euler_loop_inv (end_ : float) (fuel : nat) : forall st,
  euler_inv N n st ->
  match euler_loop system step_size end_ fuel st with
  | Return st' => euler_inv N n st'
  | Raise _ => False
  | Running st' => euler_inv N n st' /\ length (e_x st') = length (e_x st) + fuel
  end.
Proof.
  induction fuel as [|fuel IH]; intros st Hinv; simpl.
  - destruct (e_t st <? end_)%float; auto.
  - destruct (e_t st <? end_)%float; [|exact Hinv].
    destruct (euler_body_inv st Hinv) as (st' & -> & Hinv' & Hx & _).
    specialize (IH st' Hinv').
    destruct (euler_loop system step_size end_ fuel st'); auto.
    destruct IH as [? ->]. split; [assumption|].
    rewrite Hx, length_app. simpl. lia.
Qed.

End EulerInvariant.

Lemma euler_loop_step system step_size end_ fuel st st' :
  (e_t st <? end_)%float = true ->
  euler_body system step_size st = Return st' ->
  euler_loop system step_size end_ (S fuel) st
  = euler_loop system step_size end_ fuel st'.
Proof. intros Hlt Hbody. simpl. rewrite Hlt, Hbody. reflexivity. Qed.

Lemma euler_loop_exit system step_size end_ fuel st :
  (e_t st <? end_)%float = false ->
  euler_loop system step_size end_ fuel st = Return st.
Proof. intros Hge. destruct fuel; simpl; rewrite Hge; reflexivity. Qed.

Lemma initialize_system_lengths (system : System) :
  in_place system ->
  length (initialize_system system).1.1 = length (createStateVector system)
  /\ length (initialize_system system).1.2 = length (createRateVector system).
Proof.
  intros [Hinit _]. unfold initialize_system.
  specialize (Hinit (createStateVector system) (createVariableVector system)).
  destruct (initializeConstants system (createStateVector system)
              (createVariableVector system)) as [states variables].
  simpl in *. split; [assumption|reflexivity].
Qed.

Lemma euler_inv_initial (t : float) (states rates variables : vec) :
  euler_inv (length states) (length rates)
    {| e_t := t; e_states := states; e_rates := rates;
       e_variables := variables; e_x := [];
       e_results := empty_results (length states) |}.
Proof.
  unfold euler_inv, empty_results; simpl. rewrite length_replicate.
  repeat split; try lia; [congruence|].
  intros i series Hi. apply lookup_replicate in Hi as [-> _].
  destruct (decide _); reflexivity.
Qed.

(** The driver as a run of the loop from its initial state. *)
Lemma solve_using_euler_unfold system step_size interval fuel t end_ :
  py_first interval = Some t -> py_last interval = Some end_ ->
  solve_using_euler system step_size interval fuel
  = match euler_loop system step_size end_ fuel
            {| e_t := t; e_states := (initialize_system system).1.1;
               e_rates := (initialize_system system).1.2;
               e_variables := (initialize_system system).2;
               e_x := [];
               e_results :=
                 empty_results (length (initialize_system system).1.1) |}
    with
    | Return st => Return (e_x st, e_results st)
    | Raise e => Raise e
    | Running st => Running st
    end.
Proof.
  intros Hfirst Hlast. unfold solve_using_euler.
  destruct (initialize_system system) as [[states rates] variables].
  rewrite Hfirst, Hlast. reflexivity.
Qed.

Lemma py_last_is_Some (interval : list float) (t : float) :
  py_first interval = Some t -> is_Some (py_last interval).
Proof.
  unfold py_first, py_last. destruct interval as [|a l]; [discriminate|].
  intros _. revert a. induction l as [|b l IH]; intros a; simpl; eauto.
Qed.

Lemma lookup_euler_update states delta i s d :
  states !! i = Some s -> delta !! i = Some d ->
  euler_update states delta !! i = Some (py_sum [s; d]).
Proof.
  intros Hs Hd. unfold euler_update.
  rewrite list_lookup_fmap, (lookup_py_zip states delta i s d Hs Hd).
  reflexivity.
Qed.

(** ** C1: the two samples of the decay system *)

(** The run of the decay system over the interval from [0] to [0.2] with
    the step size [0.1]. *)
Lemma decay_run (fuel : nat) :
  solve_using_euler decay 0.1 [0; 0.2]%float (2 + fuel)
  = Return ([0; 0.1]%float, [[0.9; 0.81]%float]).
Proof.
  rewrite (solve_using_euler_unfold _ _ _ _ 0%float 0.2%float)
    by reflexivity.
  change (2 + fuel) with (S (S fuel)).
  rewrite (euler_loop_step _ _ _ _ _
             {| e_t := 0.1; e_states := [0.9%float]; e_rates := [(-1)%float];
                e_variables := []; e_x := [0%float];
                e_results := [[0.9%float]] |})
    by (vm_compute; reflexivity).
  rewrite (euler_loop_step _ _ _ _ _
             {| e_t := 0.2; e_states := [0.81%float];
                e_rates := [(-0.9)%float];
                e_variables := []; e_x := [0; 0.1]%float;
                e_results := [[0.9; 0.81]%float] |})
    by (vm_compute; reflexivity).
  rewrite euler_loop_exit by reflexivity. reflexivity.
Qed.

(** C1 (as amended).  For [dy/dt = -y], [y(0) = 1], step size [0.1] and the
    interval from [0] to [0.2], the fixed-step driver makes exactly two
    passes through its loop and then returns exactly two samples, at the
    times [0] and [0.1]; the recorded values are those after each update,
    [0.9] and then [0.81], not the initial value [1.0]. *)
Theorem euler_decay_samples (fuel : nat) :
  solve_using_euler decay 0.1 [0; 0.2]%float fuel
  = match fuel with
    | 0 =>
        Running {| e_t := 0; e_states := [1%float]; e_rates := [nan];
                   e_variables := []; e_x := []; e_results := [[]] |}
    | 1 =>
        Running {| e_t := 0.1; e_states := [0.9%float];
                   e_rates := [(-1)%float]; e_variables := [];
                   e_x := [0%float]; e_results := [[0.9%float]] |}
    | _ => Return ([0; 0.1]%float, [[0.9; 0.81]%float])
    end.
Proof.
  destruct fuel as [|[|fuel]].
  - vm_compute. reflexivity.
  - vm_compute. reflexivity.
  - exact (decay_run fuel).
Qed.

(** C1 (as stated) fails: no run of the driver on that input returns the
    recorded values [1.0] and then [0.9]. *)
Lemma euler_decay_not_initial_value :
  ~ exists fuel x,
      solve_using_euler decay 0.1 [0; 0.2]%float fuel
      = Return (x, [[1; 0.9]%float]).
Proof.
  intros (fuel & x & H).
  destruct fuel as [|[|fuel]].
  - vm_compute in H. discriminate.
  - vm_compute in H. discriminate.
  - change (S (S fuel)) with (2 + fuel) in H.
    rewrite decay_run in H. discriminate.
Qed.

(** ** C2: the order of the steps in one pass *)

(** C2.  In a pass through the loop of the fixed-step driver (entered when
    [t < end]), on vectors of matching lengths: the rates are computed at the
    current time [t] from the states before the update; every state
    component becomes [states[i] + rates[i] * step_size] (the same number:
    the code adds with [sum], from [0], so that a sum [-0.0] comes out as
    [0.0]); the time appended
    to [x] is [t] before its increment, and the value appended to the
    [i]-th series is the updated [i]-th state; [t] is incremented by
    [step_size] last, and the loop goes on from there. *)
Theorem euler_pass_order (system : System) (step_size end_ : float)
    (fuel : nat) (st : EulerState) (rates variables : vec) :
  (e_t st <? end_)%float = true ->
  computeRates system (e_t st) (e_states st) (e_rates st) (e_variables st)
  = (rates, variables) ->
  length rates = length (e_states st) ->
  length (e_states st) <= length (e_results st) ->
  exists st',
    euler_body system step_size st = Return st'
    /\ euler_loop system step_size end_ (S fuel) st
       = euler_loop system step_size end_ fuel st'
    /\ e_rates st' = rates
    /\ length (e_states st') = length (e_states st)
    /\ (forall i s r, e_states st !! i = Some s -> rates !! i = Some r ->
          exists s', e_states st' !! i = Some s'
                     /\ same_number s' (s + r * step_size)%float)
    /\ e_x st' = e_x st ++ [e_t st]
    /\ (forall i s' series,
          e_states st' !! i = Some s' -> e_results st !! i = Some series ->
          e_results st' !! i = Some (series ++ [s']))
    /\ e_t st' = (e_t st + step_size)%float.
Proof.
  intros Hlt Hcr Hlen Hres.
  assert (Hup : length (euler_update (e_states st)
                          (euler_delta step_size rates))
                = length (e_states st)).
  { rewrite length_euler_update, length_euler_delta. lia. }
  destruct (record_Some
              (euler_update (e_states st) (euler_delta step_size rates))
              (e_results st)) as (results & Hrec & _ & Hin & _); [lia|].
  assert (Hbody : euler_body system step_size st
                  = Return {| e_t := (e_t st + step_size)%float;
                              e_states := euler_update (e_states st)
                                            (euler_delta step_size rates);
                              e_rates := rates; e_variables := variables;
                              e_x := e_x st ++ [e_t st];
                              e_results := results |}).
  { unfold euler_body. rewrite Hcr, Hrec. reflexivity. }
  eexists. split; [exact Hbody|]. simpl. rewrite Hlt, Hbody.
  repeat split; auto.
  - intros i s r Hs Hr. eexists. split.
    + apply lookup_euler_update; [exact Hs|].
      unfold euler_delta. rewrite list_lookup_fmap, Hr. reflexivity.
    + apply py_sum_pair.
  - intros i s' series Hs' Hser. rewrite (Hin i s' Hs'), Hser. reflexivity.
Qed.

(** A pass of the decay system at [t = 0] towards [end = 0.2]. *)
Lemma euler_pass_order_witness :
  exists st',
    euler_body decay 0.1
      {| e_t := 0; e_states := [1%float]; e_rates := [nan];
         e_variables := []; e_x := []; e_results := [[]] |} = Return st'
    /\ e_x st' = [0%float] /\ e_results st' = [[0.9%float]]
    /\ e_t st' = 0.1%float.
Proof.
  destruct (euler_pass_order decay 0.1 0.2 0
              {| e_t := 0; e_states := [1%float]; e_rates := [nan];
                 e_variables := []; e_x := []; e_results := [[]] |}
              [(-1)%float] [])
    as (st' & Hbody & _ & _ & _ & _ & Hx & Hres & Ht);
    [reflexivity|reflexivity|reflexivity|simpl; lia|].
  exists st'. split; [exact Hbody|]. split; [exact Hx|].
  vm_compute in Hbody. injection Hbody as <-. split; reflexivity.
Defined.

(** ** C7: the empty interval *)

(** C7.  For any system and any step size, if [interval[0] >= interval[-1]]
    the fixed-step driver returns (it raises nothing, and needs no pass
    through its loop) a trajectory with no time sample and with every
    per-state series empty. *)
Theorem euler_empty_interval (system : System) (step_size : float)
    (interval : list float) (fuel : nat) (t end_ : float) :
  py_first interval = Some t -> py_last interval = Some end_ ->
  (end_ <=? t)%float = true ->
  solve_using_euler system step_size interval fuel
  = Return ([], empty_results (length (initialize_system system).1.1)).
Proof.
  intros Hfirst Hlast Hge.
  rewrite (solve_using_euler_unfold _ _ _ _ t end_ Hfirst Hlast).
  rewrite euler_loop_exit by (apply leb_not_ltb, Hge). reflexivity.
Qed.

Lemma euler_empty_interval_witness :
  solve_using_euler decay 0.1 [0.5; 0.2]%float 0 = Return ([], [[]]).
Proof.
  apply (euler_empty_interval decay 0.1 [0.5; 0.2]%float 0 0.5 0.2);
    reflexivity.
Defined.

(** ** The scipy drivers: what each pass through the loop keeps *)

Section ScipyInvariant.

Variable integrate : string -> Callback -> Ode -> float -> Ode.
Variable system : System.
Variable method : string.
Variable step_size : float.

Local Abbreviation next st :=
  (integrated integrate system method step_size (s_solver st)).

(** A pass records the time and state of the solver after the call,
    whatever the call reports. *)
Lemma scipy_body_Some (st : ScipyState) :
  length (ode_y (next st)) <= length (s_results st) ->
  exists results,
    record (ode_y (next st)) (s_results st) = Some results
    /\ scipy_body integrate system method step_size st
       = Return {| s_solver := next st;
                   s_x := s_x st ++ [ode_t (next st)];
                   s_results := results |}.
Proof.
  intros Hlen.
  destruct (record_Some (ode_y (next st)) (s_results st) Hlen)
    as (results & Hrec & _).
  exists results. split; [exact Hrec|].
  unfold scipy_body. rewrite Hrec. reflexivity.
Qed.

Hypothesis shape : keeps_shape integrate.

Lemma scipy_body_inv (N : nat) (st : ScipyState) :
  scipy_inv N st ->
  exists st',
    scipy_body integrate system method step_size st = Return st'
    /\ scipy_inv N st'
    /\ s_solver st' = next st
    /\ s_x st' = s_x st ++ [ode_t (next st)].
Proof.
  intros (Hres & Hy & Hser).
  assert (Hlen : length (ode_y (next st)) = N).
  { unfold integrated. rewrite shape. exact Hy. }
  destruct (record_Some (ode_y (next st)) (s_results st))
    as (results & Hrec & Hl & Hin & _); [lia|].
  eexists. split.
  { unfold scipy_body. rewrite Hrec. reflexivity. }
  simpl. split; [|split; reflexivity].
  unfold scipy_inv; simpl. repeat split; try lia.
  intros i series Hi.
  assert (Hlt : i < N).
  { rewrite <- Hres, <- Hl. apply lookup_lt_is_Some. eauto. }
  destruct (lookup_lt_is_Some_2 (ode_y (next st)) i) as [value Hv];
    [lia|].
  rewrite (Hin i value Hv) in Hi.
  destruct (s_results st !! i) as [old|] eqn:Hold; [|discriminate].
  injection Hi as <-. rewrite !length_app, (Hser i old Hold). reflexivity.
Qed.

Lemma scipy_loop_inv (N : nat) (end_ : float) (fuel : nat) : forall st,
  scipy_inv N st ->
  match scipy_loop integrate system method step_size end_ fuel st with
  | Return st' => scipy_inv N st'
  | Raise _ => False
  | Running st' => scipy_inv N st'
  end.
Proof.
  induction fuel as [|fuel IH]; intros st Hinv; simpl.
  - destruct (_ && _); exact Hinv.
  - destruct (_ && _); [|exact Hinv].
    destruct (scipy_body_inv N st Hinv) as (st' & -> & Hinv' & _).
    exact (IH st' Hinv').
Qed.

End ScipyInvariant.

Lemma scipy_inv_initial (t : float) (states rates variables : vec) :
  scipy_inv (length states)
    {| s_solver := ode_setup t states rates variables; s_x := [];
       s_results := empty_results (length states) |}.
Proof.
  unfold scipy_inv, empty_results; simpl. rewrite length_replicate.
  repeat split.
  intros i series Hi. apply lookup_replicate in Hi as [-> _]. reflexivity.
Qed.

(** The driver as a run of the loop from its initial state. *)
Lemma solve_using_scipy_unfold integrate system method step_size interval
    fuel t end_ :
  py_first interval = Some t -> py_last interval = Some end_ ->
  solve_using_scipy integrate system method step_size interval fuel
  = match scipy_loop integrate system method step_size end_ fuel
            {| s_solver :=
                 ode_setup t (initialize_system system).1.1
                   (initialize_system system).1.2
                   (initialize_system system).2;
               s_x := [];
               s_results :=
                 empty_results (length (initialize_system system).1.1) |}
    with
    | Return st => Return (s_x st, s_results st)
    | Raise e => Raise e
    | Running st => Running st
    end.
Proof.
  intros Hfirst Hlast. unfold solve_using_scipy.
  destruct (initialize_system system) as [[states rates] variables].
  rewrite Hfirst, Hlast. reflexivity.
Qed.

Lemma scipy_loop_step integrate system method step_size end_ fuel st st' :
  ode_successful (s_solver st) = true ->
  (ode_t (s_solver st) <? end_)%float = true ->
  scipy_body integrate system method step_size st = Return st' ->
  scipy_loop integrate system method step_size end_ (S fuel) st
  = scipy_loop integrate system method step_size end_ fuel st'.
Proof. intros Hok Hlt Hbody. simpl. rewrite Hok, Hlt, Hbody. reflexivity. Qed.

Lemma scipy_loop_exit integrate system method step_size end_ fuel st :
  ode_successful (s_solver st) && (ode_t (s_solver st) <? end_)%float = false ->
  scipy_loop integrate system method step_size end_ fuel st = Return st.
Proof. intros Hstop. destruct fuel; simpl; rewrite Hstop; reflexivity. Qed.

(** ** C3: every series is as long as the list of times *)

Lemma solve_using_euler_aligned system step_size interval fuel trajectory :
  in_place system -> consistent system ->
  solve_using_euler system step_size interval fuel = Return trajectory ->
  length trajectory.2 = length (createStateVector system)
  /\ aligned trajectory.
Proof.
  intros Hplace Hcons Hrun.
  destruct (initialize_system_lengths system Hplace) as [Hs Hr].
  unfold solve_using_euler in Hrun.
  destruct (initialize_system system) as [[states rates] variables].
  simpl in Hs, Hr.
  destruct (py_first interval) as [t|]; [|discriminate].
  destruct (py_last interval) as [end_|]; [|discriminate].
  pose proof (euler_loop_inv system step_size (length states) (length rates)
                (proj2 Hplace) end_ fuel _
                (euler_inv_initial t states rates variables)) as Hinv.
  destruct (euler_loop _ _ _ _ _) as [st| |]; try discriminate.
  injection Hrun as <-. destruct Hinv as (Hres & _ & _ & _ & _ & Hser).
  simpl. split; [congruence|].
  intros i series Hi. simpl in *. rewrite (Hser i series Hi).
  assert (i < length (e_results st))
    by (apply lookup_lt_is_Some; eauto).
  unfold consistent in Hcons. destruct (decide _); lia.
Qed.

Lemma solve_using_scipy_aligned integrate system method step_size interval
    fuel trajectory :
  keeps_shape integrate -> in_place system ->
  solve_using_scipy integrate system method step_size interval fuel
  = Return trajectory ->
  length trajectory.2 = length (createStateVector system)
  /\ aligned trajectory.
Proof.
  intros Hshape Hplace Hrun.
  destruct (initialize_system_lengths system Hplace) as [Hs _].
  unfold solve_using_scipy in Hrun.
  destruct (initialize_system system) as [[states rates] variables].
  simpl in Hs.
  destruct (py_first interval) as [t|]; [|discriminate].
  destruct (py_last interval) as [end_|]; [|discriminate].
  pose proof (scipy_loop_inv integrate system method step_size Hshape
                (length states) end_ fuel _
                (scipy_inv_initial t states rates variables)) as Hinv.
  destruct (scipy_loop _ _ _ _ _ _ _) as [st| |]; try discriminate.
  injection Hrun as <-. destruct Hinv as (Hres & _ & Hser).
  simpl. split; [congruence|]. exact Hser.
Qed.

(** C3.  For a system whose rate vector is as long as its state vector (and
    whose functions write in place), and a solver that keeps the shape of
    the state, the trajectory returned by each of the three drivers has one
    series per state, and every series is as long as the list of times. *)
Theorem sample_alignment integrate system step_size interval fuel trajectory :
  keeps_shape integrate -> in_place system -> consistent system ->
  solve_using_euler system step_size interval fuel = Return trajectory
  \/ solve_using_dop853 integrate system step_size interval fuel
     = Return trajectory
  \/ solve_using_vode integrate system step_size interval fuel
     = Return trajectory ->
  length trajectory.2 = length (createStateVector system)
  /\ forall i series,
       trajectory.2 !! i = Some series ->
       length trajectory.1 = length series.
Proof.
  intros Hshape Hplace Hcons Hrun.
  assert (length trajectory.2 = length (createStateVector system)
          /\ aligned trajectory) as [Hlen Hal].
  { destruct Hrun as [Hrun|[Hrun|Hrun]].
    - eapply solve_using_euler_aligned; eauto.
    - eapply solve_using_scipy_aligned; eauto.
    - eapply solve_using_scipy_aligned; eauto. }
  split; [exact Hlen|]. intros i series Hi. symmetry. exact (Hal i series Hi).
Qed.

Lemma decay_in_place : in_place decay.
Proof.
  split; intros; simpl; apply length_insert.
Qed.

Lemma length_advance h y : forall dy, length (advance h y dy) = length y.
Proof.
  induction y as [|u y IH]; intros [|v dy]; simpl; auto.
Qed.

Lemma one_step_integrate_keeps_shape : keeps_shape one_step_integrate.
Proof.
  intros method f solver t. unfold one_step_integrate.
  destruct (f _ _ _ _) as [dy [rates variables]]. simpl.
  apply length_advance.
Qed.

Lemma sample_alignment_witness :
  length ([[0.9; 0.81]%float] : list (list float)) = 1
  /\ forall i series,
       [[0.9; 0.81]%float] !! i = Some series ->
       length [0%float; 0.1%float] = length series.
Proof.
  apply (sample_alignment one_step_integrate decay 0.1 [0; 0.2]%float 2
           ([0; 0.1]%float, [[0.9; 0.81]%float])
           one_step_integrate_keeps_shape decay_in_place eq_refl).
  left. exact (decay_run 0).
Defined.

(** ** C5: what the scipy drivers record *)

(** C5 (as amended).  A pass through the loop of the scipy driver, entered
    when the solver is successful and its time is before the end, records
    the time and the state the solver has after [integrate], whether or not
    that call succeeded.  When the call failed, the loop stops at its next
    test and returns the trajectory accumulated so far, the sample of the
    failed call included; nothing is raised. *)
Theorem scipy_pass_records integrate system method step_size end_ fuel st :
  let solver := integrated integrate system method step_size (s_solver st) in
  ode_successful (s_solver st) = true ->
  (ode_t (s_solver st) <? end_)%float = true ->
  length (ode_y solver) <= length (s_results st) ->
  exists results,
    record (ode_y solver) (s_results st) = Some results
    /\ let st' := {| s_solver := solver; s_x := s_x st ++ [ode_t solver];
                     s_results := results |} in
       scipy_loop integrate system method step_size end_ (S fuel) st
       = scipy_loop integrate system method step_size end_ fuel st'
       /\ (ode_successful solver = false ->
           scipy_loop integrate system method step_size end_ (S fuel) st
           = Return st').
Proof.
  intros solver Hok Hlt Hlen.
  destruct (scipy_body_Some integrate system method step_size st Hlen)
    as (results & Hrec & Hbody).
  exists results. split; [exact Hrec|]. cbv zeta.
  rewrite (scipy_loop_step _ _ _ _ _ _ _ _ Hok Hlt Hbody).
  split; [reflexivity|]. intros Hfail.
  apply scipy_loop_exit. simpl. fold solver. rewrite Hfail. reflexivity.
Qed.

Lemma scipy_pass_records_witness :
  scipy_loop failing_integrate decay "vode" 0.1 0.2 1
    {| s_solver := ode_setup 0 [1%float] [nan] []; s_x := [];
       s_results := [[]] |}
  = Return {| s_solver := failing_integrate "vode"
                            (fun voi states => update voi states decay)
                            (ode_setup 0 [1%float] [nan] []) 0.1;
              s_x := [0%float]; s_results := [[1%float]] |}.
Proof.
  destruct (scipy_pass_records failing_integrate decay "vode" 0.1 0.2 0
              {| s_solver := ode_setup 0 [1%float] [nan] []; s_x := [];
                 s_results := [[]] |})
    as (results & Hrec & _ & Hfail);
    [reflexivity|reflexivity|simpl; lia|].
  vm_compute in Hrec. injection Hrec as <-.
  apply Hfail. reflexivity.
Defined.

(** C5 (as stated) fails: with a solver whose every call fails, no
    integration succeeds, and the driver still returns one sample. *)
Lemma scipy_records_failed_call :
  (forall method f solver t,
      ode_successful (failing_integrate method f solver t) = false)
  /\ solve_using_vode failing_integrate decay 0.1 [0; 0.2]%float 5
     = Return ([0%float], [[1%float]]).
Proof. split; [reflexivity|]. vm_compute. reflexivity. Qed.

(** ** C9: the timing decorator *)

Lemma repeat_call_Return {X A L : Type} (f : X -> outcome A L) (args : X)
    (a : A) (n : nat) :
  f args = Return a -> repeat_call n f args = None.
Proof.
  intros Hf. induction n as [|n IH]; simpl; [reflexivity|].
  rewrite Hf. exact IH.
Qed.

Lemma repeat_call_other {X A L : Type} (f : X -> outcome A L) (args : X)
    (n : nat) :
  (forall a, f args <> Return a) ->
  repeat_call n f args = match n with O => None | S _ => Some (f args) end.
Proof.
  intros Hf. destruct n as [|n]; simpl; [reflexivity|].
  destruct (f args) as [a| |]; [destruct (Hf a); reflexivity| |]; reflexivity.
Qed.

(** C9 (as amended).  With timing disabled, or enabled with a repetition
    count that is not zero and that a float can hold, the decorated call has
    the outcome of the undecorated function on the same arguments: the same
    trajectory when it returns one. *)
Theorem timing_keeps_outcome {X A L : Type} (name : string)
    (f : X -> outcome A L) (args : X) (w : World) :
  run_timeit (w_timing w) = false
  \/ (number (w_timing w) <> 0%Z
      /\ is_Some (py_float_of_int (number (w_timing w)))) ->
  (TimeExecution_call name f args w).1 = f args.
Proof.
  intros Hcfg. unfold TimeExecution_call.
  destruct (run_timeit (w_timing w)); [|reflexivity].
  destruct Hcfg as [|[Hnz [d Hd]]]; [discriminate|]. simpl.
  assert (Hdiv : forall a, py_truediv_int a (number (w_timing w))
                           = inr (a / d)%float).
  { intros a. unfold py_truediv_int.
    destruct (Z.eqb_spec (number (w_timing w)) 0); [contradiction|].
    rewrite Hd. reflexivity. }
  destruct (f args) as [a|e|s] eqn:Hf.
  - rewrite (repeat_call_Return f args a _ Hf), Hdiv. reflexivity.
  - rewrite repeat_call_other by (rewrite Hf; discriminate).
    destruct (Z.to_nat _); [|rewrite Hf; reflexivity].
    rewrite Hdiv. reflexivity.
  - rewrite repeat_call_other by (rewrite Hf; discriminate).
    destruct (Z.to_nat _); [|rewrite Hf; reflexivity].
    rewrite Hdiv. reflexivity.
Qed.

Lemma timing_keeps_outcome_witness :
  (timed_euler 2 (decay, 0.1%float, [0; 0.2]%float)
     {| w_timing := {| number := 3; run_timeit := true |};
        w_clock := fun _ => 0%float; w_ticks := 0; w_output := [] |}).1
  = Return ([0; 0.1]%float, [[0.9; 0.81]%float]).
Proof.
  unfold timed_euler. rewrite timing_keeps_outcome.
  - vm_compute. reflexivity.
  - right. split; [discriminate|]. vm_compute. eauto.
Defined.

(** C9 (as stated) fails for the repetition count [0] with timing enabled:
    the undecorated driver returns a trajectory and the decorated call
    raises [ZeroDivisionError]. *)
Lemma timing_zero_count_raises :
  let w := {| w_timing := {| number := 0; run_timeit := true |};
              w_clock := fun _ => 0%float; w_ticks := 0; w_output := [] |} in
  solve_using_euler decay 0.1 [0; 0.2]%float 2
  = Return ([0; 0.1]%float, [[0.9; 0.81]%float])
  /\ (timed_euler 2 (decay, 0.1%float, [0; 0.2]%float) w).1
     = Raise ZeroDivisionError.
Proof. split; vm_compute; reflexivity. Qed.

(** ** C8: an unknown solver name *)

Lemma unknown_solver_eqb (solver : string) :
  solver ∉ KNOWN_SOLVERS ->
  String.eqb solver "euler" = false
  /\ String.eqb solver "dop853" = false
  /\ String.eqb solver "vode" = false.
Proof.
  unfold KNOWN_SOLVERS. intros Hnot.
  repeat split; apply String.eqb_neq; intros ->; apply Hnot;
    repeat constructor.
Qed.

(** The three known names select the three decorated drivers. *)
Lemma known_solvers_select_drivers
    (integrate : string -> Callback -> Ode -> float -> Ode)
    (args : Args) (fuel : nat) (w : World) :
  let call := (args_module args, args_step_size args, args_interval args) in
  let valid (r : outcome Trajectory DriverState * World) :=
    match r with
    | (Return (x, y_n), w) => (Return (true, x, y_n), w)
    | (Raise e, w) => (Raise e, w)
    | (Running st, w) => (Running st, w)
    end in
  (args_solver args = "euler"%string ->
   select_driver integrate args fuel w = valid (timed_euler fuel call w))
  /\ (args_solver args = "dop853"%string ->
      select_driver integrate args fuel w
      = valid (timed_dop853 integrate fuel call w))
  /\ (args_solver args = "vode"%string ->
      select_driver integrate args fuel w
      = valid (timed_vode integrate fuel call w)).
Proof.
  repeat split; intros Hs; unfold select_driver; rewrite Hs; reflexivity.
Qed.

(** C8.  For a solver name that is none of the three known ones, the
    selection returns without raising, whatever the bound on the loops, the
    system and the solver library (no driver is run and the clock is not
    read); it holds no valid solution ([valid_solution] is false, [x] and
    [y_n] are empty); it has printed the unknown-solver message and the
    usage; and [main] returns without plotting. *)
Theorem unknown_solver_is_not_fatal
    (integrate : string -> Callback -> Ode -> float -> Ode)
    (args : Args) (fuel : nat) (w : World) :
  args_solver args ∉ KNOWN_SOLVERS ->
  select_driver integrate args fuel w
  = (Return (false, [], []),
     emit PrintHelp (emit (PrintUnknownSolver (args_solver args)) w))
  /\ exists w',
       main integrate args fuel w = (Return tt, w')
       /\ w_output w'
          = w_output w ++ [PrintUnknownSolver (args_solver args); PrintHelp]
       /\ w_ticks w' = w_ticks w.
Proof.
  intros Hnot. destruct (unknown_solver_eqb _ Hnot) as (He & Hd & Hv).
  assert (Hsel : forall w0,
             select_driver integrate args fuel w0
             = (Return (false, [], []),
                emit PrintHelp
                  (emit (PrintUnknownSolver (args_solver args)) w0))).
  { intros w0. unfold select_driver. rewrite He, Hd, Hv. reflexivity. }
  split; [apply Hsel|].
  unfold main. rewrite Hsel. eexists. split; [reflexivity|]. simpl.
  rewrite <- app_assoc. split; reflexivity.
Qed.

Lemma unknown_solver_is_not_fatal_witness :
  (main failing_integrate
     {| args_solver := "rk4"; args_timeit := 0; args_interval := [0; 100]%float;
        args_step_size := 0.001; args_module := decay |} 0 initial_world).1
  = Return tt.
Proof.
  destruct (unknown_solver_is_not_fatal failing_integrate
              {| args_solver := "rk4"; args_timeit := 0;
                 args_interval := [0; 100]%float;
                 args_step_size := 0.001; args_module := decay |}
              0 initial_world) as (_ & w' & -> & _).
  - unfold KNOWN_SOLVERS. intros Hin.
    repeat (apply elem_of_cons in Hin as [Hin|Hin]; [discriminate|]).
    inversion Hin.
  - reflexivity.
Defined.

(** ** C4: a step size that is not positive *)

Lemma euler_body_time system step_size st st' :
  euler_body system step_size st = Return st' ->
  e_t st' = (e_t st + step_size)%float /\ e_x st' = e_x st ++ [e_t st].
Proof.
  unfold euler_body. destruct (computeRates _ _ _ _ _) as [rates variables].
  destruct (record _ _); [|discriminate].
  intros H. injection H as <-. split; reflexivity.
Qed.

(** A pass on a state vector no longer than the list of series records its
    sample: recording cannot raise. *)
Lemma euler_body_total system step_size st :
  length (e_states st) <= length (e_results st) ->
  exists st',
    euler_body system step_size st = Return st'
    /\ length (e_states st') <= length (e_results st').
Proof.
  intros Hlen. unfold euler_body.
  destruct (computeRates _ _ _ _ _) as [rates variables].
  set (states := euler_update (e_states st) (euler_delta step_size rates)).
  assert (Hstates : length states <= length (e_results st)).
  { unfold states. rewrite length_euler_update. lia. }
  destruct (record_Some states (e_results st) Hstates)
    as (results & -> & Hl & _).
  eexists. split; [reflexivity|]. simpl. lia.
Qed.

Lemma euler_loop_runs_on system step_size end_ :
  (step_size <=? 0)%float = true ->
  forall fuel st,
    length (e_states st) <= length (e_results st) ->
    (e_t st <? end_)%float = true ->
    exists st',
      euler_loop system step_size end_ fuel st = Running st'
      /\ length (e_x st') = length (e_x st) + fuel.
Proof.
  intros Hstep. induction fuel as [|fuel IH]; intros st Hlen Hlt.
  - exists st. simpl. rewrite Hlt. split; [reflexivity|lia].
  - destruct (euler_body_total system step_size st Hlen)
      as (st1 & Hbody & Hlen1).
    destruct (euler_body_time _ _ _ _ Hbody) as [Ht Hx].
    rewrite (euler_loop_step _ _ _ _ _ _ Hlt Hbody).
    destruct (IH st1 Hlen1) as (st' & Hrun & Hx').
    { rewrite Ht. apply add_nonpos_stays; assumption. }
    exists st'. split; [exact Hrun|].
    rewrite Hx', Hx, length_app. simpl. lia.
Qed.

(** C4 (as amended).  The fixed-step driver does not check the step size.
    With a step size that is zero or negative nothing is raised: when
    [interval[0] < interval[-1]] the loop is entered and never left, the
    driver being still in it, with [n] samples recorded, after any number
    [n] of passes; otherwise the driver returns the empty trajectory. *)
Theorem euler_nonpositive_step system step_size interval fuel t end_ :
  py_first interval = Some t -> py_last interval = Some end_ ->
  (step_size <=? 0)%float = true ->
  if (t <? end_)%float then
    exists st,
      solve_using_euler system step_size interval fuel = Running st
      /\ length (e_x st) = fuel
  else
    solve_using_euler system step_size interval fuel
    = Return ([], empty_results (length (initialize_system system).1.1)).
Proof.
  intros Hfirst Hlast Hstep.
  rewrite (solve_using_euler_unfold _ _ _ _ t end_ Hfirst Hlast).
  destruct (t <? end_)%float eqn:Hlt.
  - destruct (euler_loop_runs_on system step_size end_ Hstep fuel
                {| e_t := t; e_states := (initialize_system system).1.1;
                   e_rates := (initialize_system system).1.2;
                   e_variables := (initialize_system system).2;
                   e_x := [];
                   e_results :=
                     empty_results
                       (length (initialize_system system).1.1) |})
      as (st' & -> & Hx).
    + simpl. unfold empty_results. rewrite length_replicate. lia.
    + exact Hlt.
    + exists st'. split; [reflexivity|exact Hx].
  - rewrite euler_loop_exit by exact Hlt. reflexivity.
Qed.

Lemma euler_nonpositive_step_witness :
  exists st,
    solve_using_euler decay (-0.5) [0; 1]%float 3 = Running st
    /\ length (e_x st) = 3.
Proof.
  exact (euler_nonpositive_step decay (-0.5) [0; 1]%float 3 0 1
           eq_refl eq_refl eq_refl).
Defined.

(** C4 (as stated) fails: with the step size [0] the driver is not
    rejected; it raises nothing, enters its loop and records samples. *)
Lemma euler_zero_step_not_rejected :
  (0 <=? 0)%float = true
  /\ (forall e, solve_using_euler decay 0 [0; 1]%float 3 <> Raise e)
  /\ exists st,
       solve_using_euler decay 0 [0; 1]%float 3 = Running st
       /\ e_x st = [0; 0; 0]%float.
Proof.
  split; [reflexivity|]. split.
  - intros e. vm_compute. discriminate.
  - eexists. split; vm_compute; reflexivity.
Qed.

(** ** C6: the recorded times increase *)

Lemma increasing_nil : increasing [].
Proof. intros k a b Ha. discriminate. Qed.

Lemma increasing_snoc (x : list float) (t : float) :
  increasing x ->
  (forall a, last x = Some a -> (a <? t)%float = true) ->
  increasing (x ++ [t]).
Proof.
  intros Hx Hlast k a b Ha Hb.
  assert (Hk : S k < length (x ++ [t])) by (apply lookup_lt_is_Some; eauto).
  rewrite length_app in Hk. simpl in Hk.
  destruct (decide (S k < length x)) as [Hin|Hout].
  - rewrite lookup_app_l in Ha, Hb by lia. exact (Hx k a b Ha Hb).
  - assert (Hlen : length x = S k) by lia.
    rewrite lookup_app_l in Ha by lia.
    rewrite lookup_app_r, Hlen, Nat.sub_diag in Hb by lia.
    injection Hb as <-. apply Hlast.
    rewrite last_lookup, Hlen. exact Ha.
Qed.

(** A time that the step does not change stops the loop from ever
    returning. *)
Lemma euler_loop_stuck system step_size end_ : forall fuel st st',
  (e_t st <? end_)%float = true ->
  (e_t st + step_size)%float = e_t st ->
  euler_loop system step_size end_ fuel st <> Return st'.
Proof.
  induction fuel as [|fuel IH]; intros st st' Hlt Hsame; simpl; rewrite Hlt;
    [discriminate|].
  destruct (euler_body system step_size st) as [st1| |] eqn:Hbody;
    try discriminate.
  destruct (euler_body_time _ _ _ _ Hbody) as [Ht _].
  apply IH; rewrite Ht, Hsame; assumption.
Qed.

Lemma euler_loop_increasing system step_size end_ :
  (0 <? step_size)%float = true ->
  forall fuel st st',
    increasing (e_x st) ->
    (forall a, last (e_x st) = Some a -> (a <? e_t st)%float = true) ->
    euler_loop system step_size end_ fuel st = Return st' ->
    increasing (e_x st').
Proof.
  intros Hstep. induction fuel as [|fuel IH]; intros st st' Hinc Hlast Hrun;
    simpl in Hrun; destruct (e_t st <? end_)%float eqn:Hlt;
    try discriminate; try (injection Hrun as <-; exact Hinc).
  destruct (euler_body system step_size st) as [st1| |] eqn:Hbody;
    try discriminate.
  destruct (euler_body_time _ _ _ _ Hbody) as [Ht Hx].
  assert (Hinc1 : increasing (e_x st1))
    by (rewrite Hx; apply increasing_snoc; assumption).
  destruct (e_t st1 <? end_)%float eqn:Hlt1.
  - destruct (PrimFloat.Leibniz.eqb (e_t st1) (e_t st)) eqn:Heq.
    + apply Leibniz.eqb_spec in Heq.
      destruct (euler_loop_stuck system step_size end_ fuel st1 st' Hlt1);
        [|exact Hrun].
      rewrite Heq at 1. symmetry. exact Ht.
    + apply (IH st1 st' Hinc1); [|exact Hrun].
      intros a Ha. rewrite Hx, last_snoc in Ha. injection Ha as <-.
      rewrite Ht. apply (add_pos_increases _ _ end_ Hstep Hlt).
      * rewrite <- Ht. exact Hlt1.
      * rewrite <- Ht. intros Hsame.
        apply (proj2 (Leibniz.eqb_spec _ _)) in Hsame. congruence.
  - rewrite euler_loop_exit in Hrun by exact Hlt1.
    injection Hrun as <-. exact Hinc1.
Qed.

Lemma scipy_body_time integrate system method step_size st st' :
  scipy_body integrate system method step_size st = Return st' ->
  s_solver st' = integrated integrate system method step_size (s_solver st)
  /\ s_x st' = s_x st ++ [ode_t (s_solver st')].
Proof.
  unfold scipy_body. destruct (record _ _); [|discriminate].
  intros H. injection H as <-. split; reflexivity.
Qed.

Section ScipyTimes.

Variable integrate : string -> Callback -> Ode -> float -> Ode.
Variable system : System.
Variable method : string.
Variables step_size end_ : float.
Hypothesis reaches : reaches_target integrate.
Hypothesis step_positive : (0 <? step_size)%float = true.

Lemma integrated_reaches (solver : Ode) :
  ode_t (integrated integrate system method step_size solver)
  = (ode_t solver + step_size)%float
  /\ ode_successful (integrated integrate system method step_size solver)
     = true.
Proof. unfold integrated. apply reaches. Qed.

Lemma scipy_loop_stuck : forall fuel st st',
  ode_successful (s_solver st) = true ->
  (ode_t (s_solver st) <? end_)%float = true ->
  (ode_t (s_solver st) + step_size)%float = ode_t (s_solver st) ->
  scipy_loop integrate system method step_size end_ fuel st <> Return st'.
Proof.
  induction fuel as [|fuel IH]; intros st st' Hok Hlt Hsame; simpl;
    rewrite Hok, Hlt; simpl; [discriminate|].
  destruct (scipy_body integrate system method step_size st)
    as [st1| |] eqn:Hbody; try discriminate.
  destruct (scipy_body_time _ _ _ _ _ _ Hbody) as [Hs _].
  destruct (integrated_reaches (s_solver st)) as [Ht Hok1].
  rewrite <- Hs in Ht, Hok1.
  apply IH; [exact Hok1|rewrite Ht, Hsame; exact Hlt|].
  rewrite Ht, Hsame. exact Hsame.
Qed.

Lemma scipy_loop_increasing : forall fuel st st',
  increasing (s_x st) ->
  (forall a, last (s_x st) = Some a ->
             a = ode_t (s_solver st) /\ a <> neg_infinity) ->
  ode_successful (s_solver st) = true ->
  scipy_loop integrate system method step_size end_ fuel st = Return st' ->
  increasing (s_x st').
Proof.
  induction fuel as [|fuel IH]; intros st st' Hinc Hlast Hok Hrun;
    simpl in Hrun; rewrite Hok in Hrun; simpl in Hrun;
    destruct (ode_t (s_solver st) <? end_)%float eqn:Hlt;
    try discriminate; try (injection Hrun as <-; exact Hinc).
  destruct (scipy_body integrate system method step_size st)
    as [st1| |] eqn:Hbody; try discriminate.
  destruct (scipy_body_time _ _ _ _ _ _ Hbody) as [Hs Hx].
  destruct (integrated_reaches (s_solver st)) as [Ht Hok1].
  rewrite <- Hs in Ht, Hok1.
  destruct (PrimFloat.Leibniz.eqb (ode_t (s_solver st1))
              (ode_t (s_solver st))) eqn:Heq.
  - apply Leibniz.eqb_spec in Heq.
    destruct (scipy_loop_stuck fuel st1 st' Hok1); [| |exact Hrun].
    + rewrite Heq. exact Hlt.
    + rewrite Heq at 1. symmetry. exact Ht.
  - assert (Hne : (ode_t (s_solver st) + step_size)%float
                  <> ode_t (s_solver st)).
    { rewrite <- Ht. intros Hsame.
      apply (proj2 (Leibniz.eqb_spec _ _)) in Hsame. congruence. }
    apply (IH st1 st'); [| |exact Hok1|exact Hrun].
    + rewrite Hx. apply increasing_snoc; [exact Hinc|].
      intros a Ha. destruct (Hlast a Ha) as [-> Hninf].
      rewrite Ht. exact (add_pos_increases_from _ _ end_ step_positive Hlt
                           Hninf Hne).
    + intros a Ha. rewrite Hx, last_snoc in Ha. injection Ha as <-.
      split; [reflexivity|]. rewrite Ht. intros Hinf.
      apply Hne. rewrite Hinf. symmetry.
      exact (add_pos_neg_infinity _ _ end_ step_positive Hlt Hinf).
Qed.

End ScipyTimes.

(** C6 (as amended).  With a positive step size, the times in the
    trajectory that the fixed-step driver returns are strictly increasing;
    so are the times in the trajectory that a scipy driver returns, provided
    every call to the solver succeeds and reaches the requested time. *)
Theorem recorded_times_increase integrate system step_size interval fuel
    x results :
  (0 <? step_size)%float = true ->
  (solve_using_euler system step_size interval fuel = Return (x, results) ->
   increasing x)
  /\ (reaches_target integrate ->
      solve_using_dop853 integrate system step_size interval fuel
      = Return (x, results)
      \/ solve_using_vode integrate system step_size interval fuel
         = Return (x, results) ->
      increasing x).
Proof.
  intros Hstep. split.
  - intros Hrun. unfold solve_using_euler in Hrun.
    destruct (initialize_system system) as [[states rates] variables].
    destruct (py_first interval) as [t|]; [|discriminate].
    destruct (py_last interval) as [end_|]; [|discriminate].
    destruct (euler_loop _ _ _ _ _) as [st| |] eqn:Hloop; try discriminate.
    injection Hrun as <- _.
    refine (euler_loop_increasing _ _ _ Hstep _ _ _ _ _ Hloop).
    + exact increasing_nil.
    + intros a Ha. discriminate.
  - intros Hreach Hrun.
    assert (Hscipy : forall method,
               solve_using_scipy integrate system method step_size interval
                 fuel = Return (x, results) -> increasing x).
    { intros method H. unfold solve_using_scipy in H.
      destruct (initialize_system system) as [[states rates] variables].
      destruct (py_first interval) as [t|]; [|discriminate].
      destruct (py_last interval) as [end_|]; [|discriminate].
      destruct (scipy_loop _ _ _ _ _ _ _) as [st| |] eqn:Hloop;
        try discriminate.
      injection H as <- _.
      refine (scipy_loop_increasing integrate system method step_size end_
                Hreach Hstep _ _ _ _ _ _ Hloop).
      - exact increasing_nil.
      - intros a Ha. discriminate.
      - reflexivity. }
    destruct Hrun as [Hrun|Hrun]; exact (Hscipy _ Hrun).
Qed.

Lemma one_step_integrate_reaches_target : reaches_target one_step_integrate.
Proof.
  intros method f solver t. unfold one_step_integrate.
  destruct (f _ _ _ _) as [dy [rates variables]]. split; reflexivity.
Qed.

Lemma recorded_times_increase_witness :
  increasing [0; 0.1]%float /\ increasing [0.1; 0.2]%float.
Proof.
  split.
  - apply (proj1 (recorded_times_increase one_step_integrate decay 0.1
                    [0; 0.2]%float 2 [0; 0.1]%float [[0.9; 0.81]%float]
                    eq_refl)).
    exact (decay_run 0).
  - apply (proj2 (recorded_times_increase one_step_integrate decay 0.1
                    [0; 0.2]%float 2 [0.1; 0.2]%float [[0.9; 0.81]%float]
                    eq_refl)).
    + exact one_step_integrate_reaches_target.
    + right. vm_compute. reflexivity.
Defined.

(** C6 (as stated) fails for the scipy drivers: with a solver that cannot
    proceed beyond [t = 0.05], a positive step size and an interval in
    order, the second call fails where the first one ended and the same time
    is recorded twice. *)
Lemma scipy_times_repeat :
  (0 <? 0.1)%float = true /\ (0 <=? 1)%float = true
  /\ solve_using_vode (stalling_integrate 0.05) decay 0.1 [0; 1]%float 5
     = Return ([0.1; 0.1]%float, [[0.9; 0.9]%float])
  /\ ~ increasing [0.1; 0.1]%float.
Proof.
  split; [reflexivity|]. split; [reflexivity|].
  split; [vm_compute; reflexivity|].
  intros H. specialize (H 0 0.1%float 0.1%float eq_refl eq_refl).
  vm_compute in H. discriminate.
Qed.

(** ** C10: a rate vector shorter than the state vector *)

(** One pass of the loop on a state vector no longer than the list of
    series: the new state vector is cut to the shorter of the old state
    vector and the rate vector, each of its values is the old state plus the
    rate times the step size, and is appended to the series of the same
    index; the series beyond the new state vector are left as they were. *)
Lemma euler_body_records system step_size st :
  (forall voi states rates variables,
      length (computeRates system voi states rates variables).1
      = length rates) ->
  length (e_states st) <= length (e_results st) ->
  exists st',
    euler_body system step_size st = Return st'
    /\ length (e_states st')
       = Nat.min (length (e_states st)) (length (e_rates st))
    /\ length (e_rates st') = length (e_rates st)
    /\ length (e_results st') = length (e_results st)
    /\ e_x st' = e_x st ++ [e_t st]
    /\ (forall i s r,
          e_states st !! i = Some s -> e_rates st' !! i = Some r ->
          e_states st' !! i = Some (py_sum [s; (r * step_size)%float]))
    /\ (forall i series,
          e_results st !! i = Some series ->
          e_results st' !! i
          = Some (match e_states st' !! i with
                  | Some value => series ++ [value]
                  | None => series
                  end)).
Proof.
  intros Hplace Hlen. unfold euler_body.
  pose proof (Hplace (e_t st) (e_states st) (e_rates st) (e_variables st))
    as Hrates.
  destruct (computeRates system (e_t st) (e_states st) (e_rates st)
              (e_variables st)) as [rates variables]. simpl in Hrates.
  set (states := euler_update (e_states st) (euler_delta step_size rates)).
  assert (Hstates : length states
                    = Nat.min (length (e_states st)) (length (e_rates st))).
  { unfold states. rewrite length_euler_update, length_euler_delta. lia. }
  destruct (record_Some states (e_results st))
    as (results & -> & Hl & Hin & Hout); [lia|].
  eexists. split; [reflexivity|]. simpl.
  repeat split; auto.
  - intros i s r Hs Hr. unfold states. apply lookup_euler_update; [exact Hs|].
    unfold euler_delta. rewrite list_lookup_fmap, Hr. reflexivity.
  - intros i series Hi.
    destruct (states !! i) as [value|] eqn:Hv.
    + rewrite (Hin i value Hv), Hi. reflexivity.
    + rewrite Hout, Hi; [reflexivity|]. apply lookup_ge_None. exact Hv.
Qed.

(** The times a run of the loop leaves recorded start with those recorded
    before it. *)
Lemma euler_loop_prefix system step_size end_ : forall fuel st st',
  euler_loop system step_size end_ fuel st = Return st' ->
  exists more, e_x st' = e_x st ++ more.
Proof.
  induction fuel as [|fuel IH]; intros st st'; simpl.
  - destruct (e_t st <? end_)%float; [discriminate|].
    intros H. injection H as <-. exists []. rewrite app_nil_r. reflexivity.
  - destruct (e_t st <? end_)%float.
    + destruct (euler_body system step_size st) as [st1| |] eqn:Hbody;
        try discriminate.
      intros Hloop. destruct (IH st1 st' Hloop) as [more Hmore].
      destruct (euler_body_time _ _ _ _ Hbody) as [_ Hx].
      exists (e_t st :: more). rewrite Hmore, Hx, <- app_assoc. reflexivity.
    + intros H. injection H as <-. exists []. rewrite app_nil_r. reflexivity.
Qed.

(** A run of the loop that starts before the end with nothing recorded and
    returns has recorded its starting time first. *)
Lemma euler_loop_first system step_size end_ fuel st st' :
  (e_t st <? end_)%float = true ->
  e_x st = [] ->
  euler_loop system step_size end_ fuel st = Return st' ->
  head (e_x st') = Some (e_t st).
Proof.
  intros Hlt Hnil. destruct fuel as [|fuel]; simpl; rewrite Hlt;
    [discriminate|].
  destruct (euler_body system step_size st) as [st1| |] eqn:Hbody;
    try discriminate.
  intros Hloop.
  destruct (euler_loop_prefix _ _ _ _ _ _ Hloop) as [more Hmore].
  destruct (euler_body_time _ _ _ _ Hbody) as [_ Hx].
  rewrite Hmore, Hx, Hnil. reflexivity.
Qed.

(** C10.  When the rate vector is shorter than the state vector (the
    functions of the system writing in place), the fixed-step driver raises
    nothing, and:
    - every pass of the loop cuts the state vector to the shorter of itself
      and the rate vector, computes each value that is left as the old state
      plus the rate times the step size, appends it to the series of its
      index, and leaves the series of the other indices as they were;
    - when the start is before the end, the first pass runs on the whole
      state vector and leaves as many states as there are rates, the time
      [t] recorded, one value in the series of each state that is left and
      the series of the trailing states empty, and the run goes on from
      there;
    - a run that returns has one series per state, the series of the states
      that have a rate as long as the list of times and those of the
      trailing states empty, and the list of times starts with [t] when the
      start is before the end; a run that is cut short after [fuel] passes
      has recorded [fuel] times, with the same shape of the series, and its
      state vector is as long as the rate vector once a pass has run. *)
Theorem euler_short_rate_vector system step_size interval fuel t end_ :
  in_place system ->
  py_first interval = Some t ->
  py_last interval = Some end_ ->
  length (createRateVector system) < length (createStateVector system) ->
  let n := length (createRateVector system) in
  let N := length (createStateVector system) in
  let dropped (x : list float) (results : list vec) :=
    length results = N
    /\ forall i series,
         results !! i = Some series ->
         if decide (i < n) then length series = length x else series = [] in
  let start :=
    {| e_t := t; e_states := (initialize_system system).1.1;
       e_rates := (initialize_system system).1.2;
       e_variables := (initialize_system system).2;
       e_x := []; e_results := empty_results N |} in
  (forall st,
      length (e_results st) = N -> length (e_states st) <= N ->
      length (e_rates st) = n ->
      exists st',
        euler_body system step_size st = Return st'
        /\ length (e_states st') = Nat.min (length (e_states st)) n
        /\ length (e_rates st') = n
        /\ length (e_results st') = N
        /\ e_x st' = e_x st ++ [e_t st]
        /\ (forall i s r,
              e_states st !! i = Some s -> e_rates st' !! i = Some r ->
              e_states st' !! i = Some (py_sum [s; (r * step_size)%float]))
        /\ (forall i series,
              e_results st !! i = Some series ->
              e_results st' !! i
              = Some (match e_states st' !! i with
                      | Some value => series ++ [value]
                      | None => series
                      end)))
  /\ ((t <? end_)%float = true ->
      length (e_states start) = N
      /\ exists st1,
           euler_body system step_size start = Return st1
           /\ length (e_states st1) = n
           /\ e_x st1 = [t]
           /\ e_results st1
              = ((fun value => [value]) <$> e_states st1)
                ++ replicate (N - n) []
           /\ solve_using_euler system step_size interval (S fuel)
              = match euler_loop system step_size end_ fuel st1 with
                | Return st => Return (e_x st, e_results st)
                | Raise e => Raise e
                | Running st => Running st
                end)
  /\ match solve_using_euler system step_size interval fuel with
     | Return (x, results) =>
         dropped x results
         /\ ((t <? end_)%float = true -> head x = Some t)
     | Raise _ => False
     | Running st =>
         dropped (e_x st) (e_results st)
         /\ length (e_x st) = fuel
         /\ (0 < fuel -> length (e_states st) = n)
     end.
Proof.
  intros Hplace Hfirst Hlast Hshort n N dropped start.
  destruct (initialize_system_lengths system Hplace) as [Hs Hr].
  fold N in Hs. fold n in Hr.
  assert (Hpass : forall st,
             length (e_results st) = N -> length (e_states st) <= N ->
             length (e_rates st) = n ->
             exists st',
               euler_body system step_size st = Return st'
               /\ length (e_states st') = Nat.min (length (e_states st)) n
               /\ length (e_rates st') = n
               /\ length (e_results st') = N
               /\ e_x st' = e_x st ++ [e_t st]
               /\ (forall i s r,
                     e_states st !! i = Some s -> e_rates st' !! i = Some r ->
                     e_states st' !! i
                     = Some (py_sum [s; (r * step_size)%float]))
               /\ (forall i series,
                     e_results st !! i = Some series ->
                     e_results st' !! i
                     = Some (match e_states st' !! i with
                             | Some value => series ++ [value]
                             | None => series
                             end))).
  { intros st Hres Hstates Hrates.
    destruct (euler_body_records system step_size st (proj2 Hplace))
      as (st' & Hbody & H1 & H2 & H3 & H4 & H5 & H6); [lia|].
    exists st'. rewrite Hrates in H1, H2. rewrite Hres in H3.
    repeat split; assumption. }
  split; [exact Hpass|]. split.
  - (* the first pass *)
    intros Hlt. split; [exact Hs|].
    destruct (Hpass start) as (st1 & Hbody & H1 & H2 & H3 & H4 & H5 & H6).
    { simpl. unfold empty_results. apply length_replicate. }
    { simpl. lia. }
    { exact Hr. }
    exists st1. simpl in H1, H4, H6. rewrite Hs in H1.
    rewrite Nat.min_r in H1 by lia.
    repeat split; try assumption.
    + apply list_eq. intros i.
      destruct (decide (i < N)) as [Hi|Hi].
      * assert (Hold : empty_results N !! i = Some []).
        { unfold empty_results. apply lookup_replicate. split; [reflexivity|lia]. }
        rewrite (H6 i [] Hold).
        destruct (decide (i < n)) as [Hin|Hin].
        -- destruct (lookup_lt_is_Some_2 (e_states st1) i) as [value Hv];
             [lia|].
           rewrite Hv, lookup_app_l by (rewrite length_fmap; lia).
           rewrite list_lookup_fmap, Hv. reflexivity.
        -- rewrite (proj2 (lookup_ge_None (e_states st1) i)) by lia.
           rewrite lookup_app_r by (rewrite length_fmap; lia).
           symmetry. apply lookup_replicate. split; [reflexivity|].
           rewrite length_fmap. lia.
      * rewrite (proj2 (lookup_ge_None (e_results st1) i)) by lia.
        symmetry. apply lookup_ge_None.
        rewrite length_app, length_fmap, length_replicate. lia.
    + rewrite (solve_using_euler_unfold _ _ _ _ _ _ Hfirst Hlast), Hs.
      fold start. rewrite (euler_loop_step _ _ _ _ start st1 Hlt Hbody).
      reflexivity.
  - (* the run *)
    rewrite (solve_using_euler_unfold _ _ _ _ _ _ Hfirst Hlast), Hs.
    fold start.
    assert (Hinv0 : euler_inv N n start).
    { pose proof (euler_inv_initial t (initialize_system system).1.1
                    (initialize_system system).1.2
                    (initialize_system system).2) as H.
      rewrite Hs, Hr in H. exact H. }
    pose proof (euler_loop_inv system step_size N n (proj2 Hplace) end_ fuel
                  start Hinv0) as Hinv.
    assert (Hdropped : forall st,
               euler_inv N n st ->
               dropped (e_x st) (e_results st)
               /\ (e_x st <> [] -> length (e_states st) = n)).
    { intros st (Hres & _ & _ & _ & Hx & Hser). unfold dropped.
      split; [split; [exact Hres|]|].
      - intros i series Hi. specialize (Hser i series Hi).
        rewrite Nat.min_r in Hser by lia.
        destruct (decide (i < n)); [exact Hser|].
        destruct series; [reflexivity|discriminate].
      - intros Hne. rewrite (Hx Hne). lia. }
    destruct (euler_loop system step_size end_ fuel start) as [st| |st]
      eqn:Hloop.
    + split; [apply Hdropped, Hinv|].
      intros Hlt. exact (euler_loop_first _ _ _ _ start st Hlt eq_refl Hloop).
    + exact Hinv.
    + destruct Hinv as [Hinv Hx]. simpl in Hx.
      destruct (Hdropped st Hinv) as [Hd Hcut].
      split; [exact Hd|]. split; [exact Hx|].
      intros Hfuel. apply Hcut. intros Hnil. rewrite Hnil in Hx.
      simpl in Hx. lia.
Qed.

Lemma lopsided_in_place : in_place lopsided.
Proof.
  split; intros; simpl; rewrite ?length_insert; reflexivity.
Qed.

Lemma euler_short_rate_vector_witness :
  (exists st1,
      euler_body lopsided 0.1
        {| e_t := 0; e_states := [1; 2]%float; e_rates := [nan];
           e_variables := []; e_x := []; e_results := [[]; []] |}
      = Return st1
      /\ length (e_states st1) = 1
      /\ e_x st1 = [0%float]
      /\ e_results st1 = ((fun value => [value]) <$> e_states st1) ++ [[]]
      /\ solve_using_euler lopsided 0.1 [0; 0.2]%float 3
         = match euler_loop lopsided 0.1 0.2 2 st1 with
           | Return st => Return (e_x st, e_results st)
           | Raise e => Raise e
           | Running st => Running st
           end)
  /\ match solve_using_euler lopsided 0.1 [0; 0.2]%float 2 with
     | Return (x, results) =>
         (length results = 2
          /\ forall i series,
               results !! i = Some series ->
               if decide (i < 1) then length series = length x
               else series = [])
         /\ ((0 <? 0.2)%float = true -> head x = Some 0%float)
     | Raise _ => False
     | Running st => False
     end.
Proof.
  pose proof (euler_short_rate_vector lopsided 0.1 [0; 0.2]%float 2
                0%float 0.2%float lopsided_in_place eq_refl eq_refl
                ltac:(simpl; lia)) as H.
  cbv zeta in H.
  exact (conj (proj2 (proj1 (proj2 H) eq_refl)) (proj2 (proj2 H))).
Defined.

(** * Further properties of the drivers *)

(** ** The fixed-step driver: errors, recorded times, absorbed steps *)

Lemma euler_loop_no_raise system step_size end_ : forall fuel st,
  length (e_states st) <= length (e_results st) ->
  forall e, euler_loop system step_size end_ fuel st <> Raise e.
Proof.
  induction fuel as [|fuel IH]; intros st Hlen e; simpl;
    destruct (e_t st <? end_)%float; try discriminate.
  destruct (euler_body_total system step_size st Hlen) as (st1 & -> & Hlen1).
  apply IH. exact Hlen1.
Qed.

(** X1.  For a system whose functions return and whose [computeRates]
    writes only into the rates and the variables it is handed, leaving the
    list of states as long as it was (what [System] can express:
    [computeRates] gives back rates and variables, of any length, and no
    states), and a step size that is a float, the fixed-step driver raises
    in one case only: [IndexError], when the interval is the empty list.
    Recording a sample never indexes past the series, whatever the lengths
    of the rate vector and of the vectors that the functions give back. *)
Theorem euler_raises_only_on_empty_interval system step_size interval fuel :
  (interval = [] ->
   solve_using_euler system step_size interval fuel = Raise IndexError)
  /\ (forall e,
        solve_using_euler system step_size interval fuel = Raise e ->
        interval = [] /\ e = IndexError).
Proof.
  unfold solve_using_euler.
  destruct (initialize_system system) as [[states rates] variables].
  split.
  - intros ->. reflexivity.
  - intros e Hrun. destruct interval as [|t interval]; simpl in Hrun.
    + injection Hrun as <-. auto.
    + destruct (py_last_is_Some (t :: interval) t eq_refl) as [end_ Hlast].
      rewrite Hlast in Hrun.
      pose proof (euler_loop_no_raise system step_size end_ fuel
                    {| e_t := t; e_states := states; e_rates := rates;
                       e_variables := variables; e_x := [];
                       e_results := empty_results (length states) |}) as Hno.
      destruct (euler_loop _ _ _ _ _) as [st|e'|st]; try discriminate.
      destruct (Hno ltac:(simpl; unfold empty_results;
                          rewrite length_replicate; lia) e' eq_refl).
Qed.

Lemma euler_loop_times system step_size end_ : forall fuel st st',
  euler_loop system step_size end_ fuel st = Return st' ->
  exists n,
    e_x st' = e_x st ++ times_from (e_t st) step_size n
    /\ Forall (fun a => (a <? end_)%float = true)
         (times_from (e_t st) step_size n)
    /\ e_t st' = time_after (e_t st) step_size n
    /\ (e_t st' <? end_)%float = false.
Proof.
  induction fuel as [|fuel IH]; intros st st' Hrun; simpl in Hrun;
    destruct (e_t st <? end_)%float eqn:Hlt; try discriminate.
  - injection Hrun as <-. exists 0. simpl.
    rewrite app_nil_r. repeat split; auto.
  - destruct (euler_body system step_size st) as [st1| |] eqn:Hbody;
      try discriminate.
    destruct (euler_body_time _ _ _ _ Hbody) as [Ht Hx].
    destruct (IH st1 st' Hrun) as (n & Hx' & Hall & Ht' & Hend).
    exists (S n). simpl. rewrite <- Ht.
    rewrite Hx', Hx, <- app_assoc. repeat split; auto.
  - injection Hrun as <-. exists 0. simpl.
    rewrite app_nil_r. repeat split; auto.
Qed.

(** X2.  The times that the fixed-step driver returns are [interval[0]] and
    the numbers obtained from it by repeated float addition of the step
    size, in order; each of them is below [interval[-1]], and the number
    that follows them is not.  This holds for every step size. *)
Theorem euler_recorded_times system step_size interval fuel t end_ x results :
  py_first interval = Some t -> py_last interval = Some end_ ->
  solve_using_euler system step_size interval fuel = Return (x, results) ->
  x = times_from t step_size (length x)
  /\ Forall (fun a => (a <? end_)%float = true) x
  /\ (time_after t step_size (length x) <? end_)%float = false.
Proof.
  intros Hfirst Hlast Hrun.
  rewrite (solve_using_euler_unfold _ _ _ _ t end_ Hfirst Hlast) in Hrun.
  destruct (euler_loop _ _ _ _ _) as [st| |] eqn:Hloop; try discriminate.
  injection Hrun as <- _.
  destruct (euler_loop_times _ _ _ _ _ _ Hloop) as (n & Hx & Hall & Ht & Hend).
  simpl in *.
  assert (Hn : length (times_from t step_size n) = n).
  { clear. revert t. induction n as [|n IH]; intros t; simpl; auto. }
  rewrite Hx, Hn. repeat split; auto. rewrite <- Ht. exact Hend.
Qed.

Lemma euler_recorded_times_witness :
  exists x results,
    solve_using_euler decay 0.1 [0; 1]%float 11 = Return (x, results)
    /\ length x = 11
    /\ x = times_from 0 0.1 11
    /\ Forall (fun a => (a <? 1)%float = true) x.
Proof.
  destruct (solve_using_euler decay 0.1 [0; 1]%float 11)
    as [[x results]| |] eqn:Hrun;
    [|vm_compute in Hrun; discriminate..].
  exists x, results. split; [reflexivity|].
  destruct (euler_recorded_times decay 0.1 [0; 1]%float 11 0 1 x results
              eq_refl eq_refl Hrun) as (Hx & Hall & _).
  assert (Hlen : length x = 11)
    by (vm_compute in Hrun; injection Hrun as <- _; reflexivity).
  rewrite Hlen in Hx. auto.
Defined.

Lemma euler_loop_absorbed system step_size end_ t :
  (t <? end_)%float = true -> (t + step_size)%float = t ->
  forall fuel st,
    e_t st = t -> length (e_states st) <= length (e_results st) ->
    exists st',
      euler_loop system step_size end_ fuel st = Running st'
      /\ e_x st' = e_x st ++ replicate fuel t.
Proof.
  intros Hlt Hsame. induction fuel as [|fuel IH]; intros st Ht Hlen.
  - exists st. simpl. rewrite Ht, Hlt, app_nil_r. auto.
  - destruct (euler_body_total system step_size st Hlen)
      as (st1 & Hbody & Hlen1).
    destruct (euler_body_time _ _ _ _ Hbody) as [Ht1 Hx1].
    rewrite (euler_loop_step _ _ _ _ _ st1) by (rewrite ?Ht; assumption).
    destruct (IH st1) as (st' & Hrun & Hx'); [congruence|exact Hlen1|].
    exists st'. split; [exact Hrun|].
    rewrite Hx', Hx1, Ht, <- app_assoc. reflexivity.
Qed.

(** X3.  A step size that float addition absorbs ([interval[0] + step_size]
    is [interval[0]] again) with [interval[0] < interval[-1]] makes the
    fixed-step driver loop for ever: after any number [n] of passes it is
    still in its loop, having recorded [n] times the same time. *)
Theorem euler_absorbed_step_never_returns system step_size interval fuel
    t end_ :
  py_first interval = Some t -> py_last interval = Some end_ ->
  (t <? end_)%float = true -> (t + step_size)%float = t ->
  exists st,
    solve_using_euler system step_size interval fuel = Running st
    /\ e_x st = replicate fuel t.
Proof.
  intros Hfirst Hlast Hlt Hsame.
  rewrite (solve_using_euler_unfold _ _ _ _ t end_ Hfirst Hlast).
  destruct (euler_loop_absorbed system step_size end_ t Hlt Hsame fuel
              {| e_t := t; e_states := (initialize_system system).1.1;
                 e_rates := (initialize_system system).1.2;
                 e_variables := (initialize_system system).2;
                 e_x := [];
                 e_results :=
                   empty_results (length (initialize_system system).1.1) |})
    as (st' & -> & Hx); [reflexivity| |].
  - simpl. unfold empty_results. rewrite length_replicate. lia.
  - exists st'. split; [reflexivity|exact Hx].
Qed.

Lemma euler_absorbed_step_never_returns_witness :
  exists st,
    solve_using_euler decay 1 [1e16; 2e16]%float 4 = Running st
    /\ e_x st = replicate 4 1e16%float.
Proof.
  exact (euler_absorbed_step_never_returns decay 1 [1e16; 2e16]%float 4
           1e16 2e16 eq_refl eq_refl eq_refl eq_refl).
Defined.

(** X4.  When the rate vector is at least as long as the state vector (the
    functions of the system writing in place), the rates beyond the states
    are ignored: the fixed-step driver returns one series per state, each as
    long as the list of times. *)
Theorem euler_long_rate_vector system step_size interval fuel trajectory :
  in_place system ->
  length (createStateVector system) <= length (createRateVector system) ->
  solve_using_euler system step_size interval fuel = Return trajectory ->
  length trajectory.2 = length (createStateVector system)
  /\ aligned trajectory.
Proof.
  intros Hplace Hlong Hrun.
  destruct (initialize_system_lengths system Hplace) as [Hs Hr].
  unfold solve_using_euler in Hrun.
  destruct (initialize_system system) as [[states rates] variables].
  simpl in Hs, Hr.
  destruct (py_first interval) as [t|]; [|discriminate].
  destruct (py_last interval) as [end_|]; [|discriminate].
  pose proof (euler_loop_inv system step_size (length states) (length rates)
                (proj2 Hplace) end_ fuel _
                (euler_inv_initial t states rates variables)) as Hinv.
  destruct (euler_loop _ _ _ _ _) as [st| |]; try discriminate.
  injection Hrun as <-. destruct Hinv as (Hres & _ & _ & _ & _ & Hser).
  simpl. split; [congruence|].
  intros i series Hi. simpl in *. rewrite (Hser i series Hi).
  assert (i < length (e_results st)) by (apply lookup_lt_is_Some; eauto).
  destruct (decide _); lia.
Qed.

Lemma overrated_in_place : in_place overrated.
Proof.
  split; intros; simpl; rewrite ?length_insert; reflexivity.
Qed.

Lemma euler_long_rate_vector_witness :
  length ([[0.9; 0.81]%float] : list (list float)) = 1
  /\ aligned ([0; 0.1]%float, [[0.9; 0.81]%float]).
Proof.
  apply (euler_long_rate_vector overrated 0.1 [0; 0.2]%float 2
           ([0; 0.1]%float, [[0.9; 0.81]%float]) overrated_in_place).
  - simpl. lia.
  - vm_compute. reflexivity.
Defined.

(** ** The scipy drivers: empty interval, errors, recorded times *)

(** X5.  If [interval[0] >= interval[-1]], the scipy driver returns the
    empty trajectory (no time, every series empty) without calling the
    solver: the result is the same for every solver, method and step
    size. *)
Theorem scipy_empty_interval integrate system method step_size interval fuel
    t end_ :
  py_first interval = Some t -> py_last interval = Some end_ ->
  (end_ <=? t)%float = true ->
  solve_using_scipy integrate system method step_size interval fuel
  = Return ([], empty_results (length (initialize_system system).1.1)).
Proof.
  intros Hfirst Hlast Hge.
  rewrite (solve_using_scipy_unfold _ _ _ _ _ _ t end_ Hfirst Hlast).
  rewrite scipy_loop_exit; [reflexivity|].
  simpl. apply leb_not_ltb, Hge.
Qed.

Lemma scipy_empty_interval_witness :
  solve_using_scipy failing_integrate decay "dop853" 0.1 [1; 1]%float 0
  = Return ([], [[]]).
Proof.
  exact (scipy_empty_interval failing_integrate decay "dop853" 0.1
           [1; 1]%float 0 1 1 eq_refl eq_refl eq_refl).
Defined.

(** With a solver that keeps the shape of the state, recording a sample
    never indexes past the series: the loop of the scipy driver raises
    nothing of its own. *)
Lemma scipy_own_raises integrate system method step_size interval fuel :
  keeps_shape integrate ->
  (interval = [] ->
   solve_using_scipy integrate system method step_size interval fuel
   = Raise IndexError)
  /\ (forall e,
        solve_using_scipy integrate system method step_size interval fuel
        = Raise e ->
        interval = [] /\ e = IndexError).
Proof.
  intros Hshape. unfold solve_using_scipy.
  destruct (initialize_system system) as [[states rates] variables].
  split.
  - intros ->. reflexivity.
  - intros e Hrun. destruct interval as [|t interval]; simpl in Hrun.
    + injection Hrun as <-. auto.
    + destruct (py_last_is_Some (t :: interval) t eq_refl) as [end_ Hlast].
      rewrite Hlast in Hrun.
      pose proof (scipy_loop_inv integrate system method step_size Hshape
                    (length states) end_ fuel _
                    (scipy_inv_initial t states rates variables)) as Hinv.
      destruct (scipy_loop _ _ _ _ _ _ _) as [st|e'|st]; try discriminate.
      destruct Hinv.
Qed.

(** X6.  For a system whose functions write in place and whose rate vector
    is as long as its state vector (the callback then hands the solver as
    many rates as there are states, so that every call to the solver
    returns), and a solver that keeps the shape of the state, the drivers
    [solve_using_dop853] and [solve_using_vode] raise in one case only:
    [IndexError], when the interval is the empty list.  What the solver
    itself raises on a callback of the wrong shape is outside this
    statement. *)
Theorem scipy_raises_only_on_empty_interval integrate system step_size
    interval fuel :
  keeps_shape integrate ->
  in_place system ->
  consistent system ->
  let only_on_empty (run : outcome Trajectory ScipyState) :=
    (interval = [] -> run = Raise IndexError)
    /\ (forall e, run = Raise e -> interval = [] /\ e = IndexError) in
  only_on_empty (solve_using_dop853 integrate system step_size interval fuel)
  /\ only_on_empty (solve_using_vode integrate system step_size interval fuel).
Proof.
  intros Hshape _ _ only_on_empty. unfold only_on_empty.
  split; apply scipy_own_raises, Hshape.
Qed.

Lemma decay_consistent : consistent decay.
Proof. reflexivity. Qed.

Lemma scipy_raises_only_on_empty_interval_witness :
  solve_using_vode one_step_integrate decay 0.1 [] 3 = Raise IndexError.
Proof.
  exact (proj1 (proj2 (scipy_raises_only_on_empty_interval one_step_integrate
                         decay 0.1 [] 3 one_step_integrate_keeps_shape
                         decay_in_place decay_consistent)) eq_refl).
Defined.

Section ScipyAgainstEuler.

Variable integrate : string -> Callback -> Ode -> float -> Ode.
Variable system : System.
Variable method : string.
Variables step_size end_ : float.
Hypothesis reaches : reaches_target integrate.

Lemma scipy_loop_shifted : forall fuel_e st_e st_e',
  euler_loop system step_size end_ fuel_e st_e = Return st_e' ->
  forall fuel_s st_s st_s',
    scipy_loop integrate system method step_size end_ fuel_s st_s
    = Return st_s' ->
    ode_t (s_solver st_s) = e_t st_e ->
    ode_successful (s_solver st_s) = true ->
    s_x st_s = (fun a => a + step_size)%float <$> e_x st_e ->
    s_x st_s' = (fun a => a + step_size)%float <$> e_x st_e'.
Proof.
  induction fuel_e as [|fuel_e IH]; intros st_e st_e' Hrun_e fuel_s st_s st_s'
    Hrun_s Ht Hok Hx; simpl in Hrun_e;
    destruct (e_t st_e <? end_)%float eqn:Hlt; try discriminate.
  - injection Hrun_e as <-.
    rewrite scipy_loop_exit in Hrun_s by (rewrite Hok, Ht, Hlt; reflexivity).
    injection Hrun_s as <-. exact Hx.
  - destruct (euler_body system step_size st_e) as [st_e1| |] eqn:Hbody_e;
      try discriminate.
    destruct (euler_body_time _ _ _ _ Hbody_e) as [Ht1 Hx1].
    destruct fuel_s as [|fuel_s]; simpl in Hrun_s;
      rewrite Hok, Ht, Hlt in Hrun_s; simpl in Hrun_s; [discriminate|].
    destruct (scipy_body integrate system method step_size st_s)
      as [st_s1| |] eqn:Hbody_s; try discriminate.
    destruct (scipy_body_time _ _ _ _ _ _ Hbody_s) as [Hs Hxs].
    destruct (integrated_reaches integrate system method step_size reaches
                (s_solver st_s)) as [Hts Hoks].
    rewrite <- Hs in Hts, Hoks.
    apply (IH st_e1 st_e' Hrun_e fuel_s st_s1 st_s' Hrun_s).
    + rewrite Hts, Ht1, Ht. reflexivity.
    + exact Hoks.
    + rewrite Hxs, Hx1, fmap_app, Hx, Hts, Ht. reflexivity.
  - injection Hrun_e as <-.
    rewrite scipy_loop_exit in Hrun_s by (rewrite Hok, Ht, Hlt; reflexivity).
    injection Hrun_s as <-. exact Hx.
Qed.

End ScipyAgainstEuler.

(** X7.  With a solver whose every call succeeds and reaches the requested
    time, the scipy driver makes as many passes as the fixed-step driver on
    the same input and records each time one step later: its list of times
    is that of the fixed-step driver with the step size added to every
    element. *)
Theorem scipy_times_are_euler_times_shifted integrate system method step_size
    interval fuel_e fuel_s x_e results_e x_s results_s :
  reaches_target integrate ->
  solve_using_euler system step_size interval fuel_e
  = Return (x_e, results_e) ->
  solve_using_scipy integrate system method step_size interval fuel_s
  = Return (x_s, results_s) ->
  x_s = (fun a => a + step_size)%float <$> x_e.
Proof.
  intros Hreach Hrun_e Hrun_s.
  unfold solve_using_euler in Hrun_e. unfold solve_using_scipy in Hrun_s.
  destruct (initialize_system system) as [[states rates] variables].
  destruct (py_first interval) as [t|]; [|discriminate].
  destruct (py_last interval) as [end_|]; [|discriminate].
  destruct (euler_loop _ _ _ _ _) as [st_e| |] eqn:Hloop_e; try discriminate.
  destruct (scipy_loop _ _ _ _ _ _ _) as [st_s| |] eqn:Hloop_s;
    try discriminate.
  injection Hrun_e as <- _. injection Hrun_s as <- _.
  exact (scipy_loop_shifted integrate system method step_size end_ Hreach
           _ _ _ Hloop_e _ _ _ Hloop_s eq_refl eq_refl eq_refl).
Qed.

Lemma scipy_times_are_euler_times_shifted_witness :
  [0.1; 0.2]%float = (fun a => a + 0.1)%float <$> [0; 0.1]%float.
Proof.
  apply (scipy_times_are_euler_times_shifted one_step_integrate decay "vode"
           0.1 [0; 0.2]%float 2 5 [0; 0.1]%float [[0.9; 0.81]%float]
           [0.1; 0.2]%float [[0.9; 0.81]%float]
           one_step_integrate_reaches_target (decay_run 0)).
  vm_compute. reflexivity.
Defined.

Lemma scipy_loop_overshoot integrate system method step_size end_ :
  always_succeeds integrate ->
  forall fuel st st',
    scipy_loop integrate system method step_size end_ fuel st = Return st' ->
    ode_successful (s_solver st) = true ->
    (forall k a, s_x st !! k = Some a -> S k < length (s_x st) ->
                 (a <? end_)%float = true) ->
    (forall a, last (s_x st) = Some a -> a = ode_t (s_solver st)) ->
    (forall k a, s_x st' !! k = Some a -> S k < length (s_x st') ->
                 (a <? end_)%float = true)
    /\ (forall a, last (s_x st') = Some a -> (a <? end_)%float = false).
Proof.
  intros Hsucc. induction fuel as [|fuel IH]; intros st st' Hrun Hok Hbefore
    Hlast; simpl in Hrun; rewrite Hok in Hrun; simpl in Hrun;
    destruct (ode_t (s_solver st) <? end_)%float eqn:Hlt; try discriminate.
  - injection Hrun as <-. split; [exact Hbefore|].
    intros a Ha. rewrite (Hlast a Ha). exact Hlt.
  - destruct (scipy_body integrate system method step_size st)
      as [st1| |] eqn:Hbody; try discriminate.
    destruct (scipy_body_time _ _ _ _ _ _ Hbody) as [Hs Hx].
    apply (IH st1 st' Hrun).
    + rewrite Hs. apply Hsucc.
    + intros k a Ha Hk. rewrite Hx in Ha, Hk.
      rewrite length_app in Hk. simpl in Hk.
      rewrite lookup_app_l in Ha by lia.
      destruct (decide (S k < length (s_x st))) as [Hin|Hout].
      * exact (Hbefore k a Ha Hin).
      * assert (Hl : last (s_x st) = Some a).
        { rewrite last_lookup. replace (pred (length (s_x st))) with k by lia.
          exact Ha. }
        rewrite (Hlast a Hl). exact Hlt.
    + intros a Ha. rewrite Hx, last_snoc in Ha. congruence.
  - injection Hrun as <-. split; [exact Hbefore|].
    intros a Ha. rewrite (Hlast a Ha). exact Hlt.
Qed.

(** X8.  With a solver whose every call succeeds, the trajectory that the
    scipy driver returns overshoots the interval: every recorded time but
    the last is below [interval[-1]], and the last one is not (the
    fixed-step driver, by X2, records only times below [interval[-1]]). *)
Theorem scipy_last_time_past_end integrate system method step_size interval
    fuel end_ x results :
  always_succeeds integrate ->
  py_last interval = Some end_ ->
  solve_using_scipy integrate system method step_size interval fuel
  = Return (x, results) ->
  (forall k a, x !! k = Some a -> S k < length x -> (a <? end_)%float = true)
  /\ (forall a, last x = Some a -> (a <? end_)%float = false).
Proof.
  intros Hsucc Hlast Hrun. unfold solve_using_scipy in Hrun.
  destruct (initialize_system system) as [[states rates] variables].
  destruct (py_first interval) as [t|]; [|discriminate].
  rewrite Hlast in Hrun.
  destruct (scipy_loop _ _ _ _ _ _ _) as [st| |] eqn:Hloop; try discriminate.
  injection Hrun as <- _.
  apply (scipy_loop_overshoot integrate system method step_size end_ Hsucc
           _ _ _ Hloop); simpl.
  - reflexivity.
  - intros k a Ha. discriminate.
  - intros a Ha. discriminate.
Qed.

Lemma one_step_integrate_always_succeeds : always_succeeds one_step_integrate.
Proof.
  intros method f solver t.
  apply (one_step_integrate_reaches_target method f solver t).
Qed.

Lemma scipy_last_time_past_end_witness :
  (forall k a, [0.1; 0.2]%float !! k = Some a -> S k < 2 ->
               (a <? 0.2)%float = true)
  /\ (forall a, last [0.1; 0.2]%float = Some a -> (a <? 0.2)%float = false).
Proof.
  apply (scipy_last_time_past_end one_step_integrate decay "dop853" 0.1
           [0; 0.2]%float 5 0.2 [0.1; 0.2]%float [[0.9; 0.81]%float]
           one_step_integrate_always_succeeds eq_refl).
  vm_compute. reflexivity.
Defined.

(** ** The timing decorator: what it reads and prints *)

(** X9.  With timing enabled, a repetition count that is not zero and that
    a float can hold, and a function that returns: the decorated call
    returns the value of the function, has read the clock exactly twice,
    has printed exactly one line, the average
    [(te - ts) * 1000 / number] under the name of the function, and has
    left the class attributes alone. *)
Theorem timed_call_prints_average {X A L : Type} (name : string)
    (f : X -> outcome A L) (args : X) (w : World) (a : A) (d : float) :
  run_timeit (w_timing w) = true ->
  number (w_timing w) <> 0%Z ->
  py_float_of_int (number (w_timing w)) = Some d ->
  f args = Return a ->
  TimeExecution_call name f args w
  = (Return a,
     {| w_timing := w_timing w; w_clock := w_clock w;
        w_ticks := S (S (w_ticks w));
        w_output :=
          w_output w
          ++ [PrintAverage name
                ((w_clock w (S (w_ticks w)) - w_clock w (w_ticks w)) * 1000
                 / d)%float] |}).
Proof.
  intros Hon Hnz Hd Hf. unfold TimeExecution_call. rewrite Hon. simpl.
  rewrite (repeat_call_Return f args a _ Hf).
  unfold py_truediv_int.
  destruct (Z.eqb_spec (number (w_timing w)) 0); [contradiction|].
  rewrite Hd, Hf. reflexivity.
Qed.

Lemma timed_call_prints_average_witness :
  timed_euler 2 (decay, 0.1%float, [0; 0.2]%float)
    {| w_timing := {| number := 4; run_timeit := true |};
       w_clock := fun n => if Nat.eqb n 0 then 10%float else 10.5%float;
       w_ticks := 0; w_output := [] |}
  = (Return ([0; 0.1]%float, [[0.9; 0.81]%float]),
     {| w_timing := {| number := 4; run_timeit := true |};
        w_clock := fun n => if Nat.eqb n 0 then 10%float else 10.5%float;
        w_ticks := 2;
        w_output := [PrintAverage "solve_using_euler" 125%float] |}).
Proof.
  unfold timed_euler.
  rewrite (timed_call_prints_average _ _ _ _
             ([0; 0.1]%float, [[0.9; 0.81]%float]) 4%float);
    [reflexivity|reflexivity|discriminate|reflexivity|].
  vm_compute. reflexivity.
Defined.

(** X10.  With timing enabled and a positive repetition count, a function
    that does not return (it raises, or never comes back) ends the decorated
    call in its first repetition: the outcome is that of the function, the
    clock has been read once and nothing has been printed. *)
Theorem timed_call_failure {X A L : Type} (name : string)
    (f : X -> outcome A L) (args : X) (w : World) :
  run_timeit (w_timing w) = true ->
  (0 < number (w_timing w))%Z ->
  (forall a, f args <> Return a) ->
  TimeExecution_call name f args w
  = (f args,
     {| w_timing := w_timing w; w_clock := w_clock w;
        w_ticks := S (w_ticks w); w_output := w_output w |}).
Proof.
  intros Hon Hpos Hf. unfold TimeExecution_call. rewrite Hon. simpl.
  rewrite (repeat_call_other f args _ Hf).
  destruct (Z.to_nat (number (w_timing w))) eqn:Hn; [lia|reflexivity].
Qed.

Lemma timed_call_failure_witness :
  timed_euler 2 (decay, 0.1%float, [])
    {| w_timing := {| number := 4; run_timeit := true |};
       w_clock := fun _ => 0%float; w_ticks := 0; w_output := [] |}
  = (Raise IndexError,
     {| w_timing := {| number := 4; run_timeit := true |};
        w_clock := fun _ => 0%float; w_ticks := 1; w_output := [] |}).
Proof.
  unfold timed_euler. rewrite timed_call_failure; try reflexivity.
  intros a. vm_compute. discriminate.
Defined.

(** ** [main] with a known solver *)




(** ** The drivers on the step size of the command line *)

Lemma py_scale_default (h : float) (rates : list float) :
  py_scale (StepDefault h) rates = Some (euler_delta h rates).
Proof.
  induction rates as [|var rates IH]; simpl; [reflexivity|].
  rewrite IH. reflexivity.
Qed.

Lemma euler_body_arg_default system h st :
  euler_body_arg system (StepDefault h) st = Ran (euler_body system h st).
Proof.
  unfold euler_body_arg, euler_body.
  destruct (computeRates _ _ _ _ _) as [rates variables].
  rewrite py_scale_default. destruct (record _ _); reflexivity.
Qed.

Lemma euler_loop_arg_default system h end_ : forall fuel st,
  euler_loop_arg system (StepDefault h) end_ fuel st
  = Ran (euler_loop system h end_ fuel st).
Proof.
  induction fuel as [|fuel IH]; intros st; simpl;
    destruct (e_t st <? end_)%float; try reflexivity.
  rewrite euler_body_arg_default.
  destruct (euler_body system h st); try reflexivity. apply IH.
Qed.

Lemma scipy_loop_arg_default integrate system method h end_ : forall fuel st,
  scipy_loop_arg integrate system method (StepDefault h) end_ fuel st
  = Ran (scipy_loop integrate system method h end_ fuel st).
Proof.
  induction fuel as [|fuel IH]; intros st; simpl;
    destruct (_ && _); try reflexivity.
  unfold scipy_body_arg, scipy_body, integrated. simpl.
  destruct (record _ _); try reflexivity. apply IH.
Qed.

(** X12.  On the default step size, a float, the drivers run as modelled
    with a float step size; a step size given on the command line, a list,
    makes the fixed-step driver raise [TypeError] in its first pass, so that
    it returns (the empty trajectory) only when
    [interval[0] >= interval[-1]]. *)
Theorem euler_step_size_from_command_line system values h interval fuel
    t end_ :
  py_first interval = Some t -> py_last interval = Some end_ ->
  solve_using_euler_arg system (StepDefault h) interval fuel
  = Ran (solve_using_euler system h interval fuel)
  /\ solve_using_euler_arg system (StepGiven values) interval (S fuel)
     = if (t <? end_)%float then TypeError
       else Ran (Return ([], empty_results
                               (length (initialize_system system).1.1))).
Proof.
  intros Hfirst Hlast. split.
  - unfold solve_using_euler_arg, solve_using_euler.
    destruct (initialize_system system) as [[states rates] variables].
    rewrite Hfirst, Hlast, euler_loop_arg_default.
    destruct (euler_loop _ _ _ _ _); reflexivity.
  - unfold solve_using_euler_arg.
    destruct (initialize_system system) as [[states rates] variables].
    rewrite Hfirst, Hlast. simpl.
    destruct (t <? end_)%float; [|reflexivity].
    unfold euler_body_arg. simpl.
    destruct (computeRates _ _ _ _ _) as [[|var rates'] variables'];
      simpl; [|reflexivity].
    replace (euler_update states []) with (@nil float)
      by (destruct states; reflexivity).
    reflexivity.
Qed.

Lemma euler_step_size_from_command_line_witness :
  solve_using_euler_arg decay (StepDefault 0.1) [0; 0.2]%float 2
  = Ran (solve_using_euler decay 0.1 [0; 0.2]%float 2)
  /\ solve_using_euler_arg decay (StepGiven [0.1%float]) [0; 0.2]%float 1
     = TypeError.
Proof.
  exact (euler_step_size_from_command_line decay [0.1%float] 0.1
           [0; 0.2]%float _ 0 0.2 eq_refl eq_refl).
Defined.

(** X13.  The same for the scipy driver: on a float step size it runs as
    modelled, and on a step size given on the command line it raises
    [TypeError] before the first call to the solver, unless
    [interval[0] >= interval[-1]]. *)
Theorem scipy_step_size_from_command_line integrate system method values h
    interval fuel t end_ :
  py_first interval = Some t -> py_last interval = Some end_ ->
  solve_using_scipy_arg integrate system method (StepDefault h) interval fuel
  = Ran (solve_using_scipy integrate system method h interval fuel)
  /\ solve_using_scipy_arg integrate system method (StepGiven values)
       interval (S fuel)
     = if (t <? end_)%float then TypeError
       else Ran (Return ([], empty_results
                               (length (initialize_system system).1.1))).
Proof.
  intros Hfirst Hlast. split.
  - unfold solve_using_scipy_arg, solve_using_scipy.
    destruct (initialize_system system) as [[states rates] variables].
    rewrite Hfirst, Hlast, scipy_loop_arg_default.
    destruct (scipy_loop _ _ _ _ _ _ _); reflexivity.
  - unfold solve_using_scipy_arg.
    destruct (initialize_system system) as [[states rates] variables].
    rewrite Hfirst, Hlast. simpl.
    destruct (t <? end_)%float; reflexivity.
Qed.

Lemma scipy_step_size_from_command_line_witness :
  solve_using_scipy_arg one_step_integrate decay "vode" (StepDefault 0.1)
    [0; 0.2]%float 2
  = Ran (solve_using_scipy one_step_integrate decay "vode" 0.1
           [0; 0.2]%float 2)
  /\ solve_using_scipy_arg one_step_integrate decay "vode"
       (StepGiven [0.1%float]) [0; 0.2]%float 1
     = TypeError.
Proof.
  exact (scipy_step_size_from_command_line one_step_integrate decay "vode"
           [0.1%float] 0.1 [0; 0.2]%float _ 0 0.2 eq_refl eq_refl).
Defined.

(** ** Recording a sample *)

(** X14.  Recording the values of a vector into the series
    ([results[index].append(value)] for each index) raises [IndexError]
    exactly when there are more values than series; otherwise it appends
    each value to the series of its index and leaves the other series and
    the number of series as they were. *)
Theorem record_raises_iff (values : list float) (results : list (list float)) :
  (record values results = None <-> length results < length values)
  /\ (forall results',
        record values results = Some results' ->
        length results' = length results
        /\ forall i series,
             results !! i = Some series ->
             results' !! i
             = Some (match values !! i with
                     | Some value => series ++ [value]
                     | None => series
                     end)).
Proof.
  split.
  - split.
    + intros Hnone.
      destruct (decide (length results < length values)); [assumption|].
      destruct (record_Some values results ltac:(lia)) as (r & Hr & _).
      congruence.
    + intros Hlt. apply record_from_None; [|simpl; lia].
      destruct values; [simpl in Hlt; lia|discriminate].
  - intros results' Hrec.
    destruct (decide (length results < length values)) as [Hlt|Hge].
    { unfold record in Hrec.
      rewrite record_from_None in Hrec; [discriminate| |simpl; lia].
      destruct values; [simpl in Hlt; lia|discriminate]. }
    destruct (record_Some values results ltac:(lia))
      as (r & Hr & Hl & Hin & Hout).
    rewrite Hr in Hrec. injection Hrec as <-. split; [exact Hl|].
    intros i series Hi. destruct (values !! i) as [value|] eqn:Hv.
    + rewrite (Hin i value Hv), Hi. reflexivity.
    + rewrite Hout, Hi; [reflexivity|]. apply lookup_ge_None. exact Hv.
Qed.
